(** * emganography: DCT steganography codec, shallow embedding and proofs

    The Go packages are embedded one module each, in dependency order:
    [bitstream], [ecc], [crc32] (Go's hash/crc32, IEEE polynomial),
    [framing], [dct], [imgutil] and [emganography].  The theorems come
    after all the definitions.

    Conventions.
    - [byte] (Go [uint8]) is the 256-constructor type of the standard
      library; [uint32] values are [Z] reduced modulo 2^32.
    - Go [int] is taken to be 64 bits wide (amd64, arm64); sums and
      products of values that are not lengths of slices go through
      [int_wrap].
    - [float64] arithmetic is written against the interface [Float64],
      which has two instances: binary64 (the machine arithmetic) and the
      real numbers (the exact arithmetic the specification reasons in).
    - A Go [[]T] is a [list T]; [nil] and the empty slice are both [[]].
      A read or write outside a slice panics in Go: [PanicIndex]. *)

From Stdlib Require Import ZArith Lia Reals Lra Floats.
From Stdlib Require Import Init.Byte Strings.Byte.
From stdpp Require Import base list strings.

Local Open Scope Z_scope.

(** ** Go prelude: loops, integers, bytes, errors *)

(** [for i := a; i < a+n; i++ { s = body i s }]. *)
Fixpoint for_from {S : Type} (a n : nat) (body : nat → S → S) (s : S) : S :=
  match n with
  | O => s
  | Datatypes.S n' => for_from (Datatypes.S a) n' body (body a s)
  end.

(** [for i := 0; i < n; i++ { s = body i s }]. *)
Definition for_loop {S : Type} (n : nat) (body : nat → S → S) (s : S) : S :=
  for_from 0 n body s.

(** [for i, x := range l { s = body i x s }], the index starting at [a]. *)
Fixpoint for_range_from {A S : Type} (a : nat) (l : list A)
    (body : nat → A → S → S) (s : S) : S :=
  match l with
  | [] => s
  | x :: l' => for_range_from (Datatypes.S a) l' body (body a x s)
  end.

Definition for_range {A S : Type} (l : list A) (body : nat → A → S → S) (s : S) : S :=
  for_range_from 0 l body s.

(** Two's complement wrap-around of a 64-bit [int]: the low 64 bits of
    [z + 2^63], less [2^63]. *)
Definition int_wrap (z : Z) : Z :=
  Z.land (z + 0x8000000000000000) 0xffffffffffffffff - 0x8000000000000000.

(** The conversion [uint32(z)]. *)
Definition uint32 (z : Z) : Z := z `mod` 2 ^ 32.

(** The value of a byte, and the conversion [byte(z)] (alias [uint8(z)]). *)
Definition Z_of_byte (b : byte) : Z := Z.of_N (Byte.to_N b).

Definition byte_of_Z (z : Z) : byte :=
  match Byte.of_N (Z.to_N (z `mod` 256)) with
  | Some b => b
  | None => x00
  end.

#[global] Instance byte_eq_decision : EqDecision byte := Byte.byte_eq_dec.
#[global] Instance byte_inhabited : Inhabited byte := populate x00.

(** Go errors: the sentinel values of the packages, the two shapes of
    [fmt.Errorf] messages the code builds, and the run-time panics of an
    index out of range and of [make] with a negative size. *)
Inductive error : Type :=
  | ErrUnsupportedScheme            (* ecc *)
  | ErrInsufficientBits             (* ecc *)
  | ErrCorruptedTriple              (* ecc, declared and never returned *)
  | ErrInvalidMagic                 (* framing *)
  | ErrInvalidLength                (* framing *)
  | ErrFrameCRCMismatch             (* framing.ErrCRCMismatch *)
  | ErrFrameTooShort                (* framing *)
  | ErrMessageTooLong               (* emganography *)
  | ErrFrameCorrupt                 (* emganography *)
  | ErrCRCMismatch                  (* emganography *)
  | Errorf (msg : string) (args : list Z)          (* "msg: %d ..." *)
  | ErrorfStr (msg : string) (arg : string)        (* "msg: %s" *)
  | ErrorfWrap (msg : string) (cause : error)      (* "msg: %w" *)
  | ErrorfWrap2 (outer : error) (cause : error)    (* "%w: %v" *)
  | ExternalError (msg : string)                   (* an error of a library outside the repository *)
  | PanicIndex                                     (* index out of range *)
  | PanicDivide                                    (* integer divide by zero *)
  | PanicMakeslice.                                (* makeslice: len or cap out of range *)

(** [errors.Is(e, framing.ErrCRCMismatch)]: [e] or an error it wraps
    with [%w] is the sentinel. *)
Fixpoint errors_Is_ErrFrameCRCMismatch (e : error) : bool :=
  match e with
  | ErrFrameCRCMismatch => true
  | ErrorfWrap _ cause => errors_Is_ErrFrameCRCMismatch cause
  | ErrorfWrap2 outer _ => errors_Is_ErrFrameCRCMismatch outer
  | _ => false
  end.

Inductive Result (A : Type) : Type :=
  | Ok (a : A)
  | Err (e : error).
Arguments Ok {A} a.
Arguments Err {A} e.

#[global] Instance Result_ret : MRet Result := λ A a, Ok a.
#[global] Instance Result_bind : MBind Result := λ A B f m,
  match m with
  | Ok a => f a
  | Err e => Err e
  end.

(** [x, err := m; if err != nil { return nil, wrap err }]. *)
Definition on_error {A : Type} (wrap : error → error) (m : Result A) : Result A :=
  match m with
  | Ok a => Ok a
  | Err e => Err (wrap e)
  end.

(** Computations that return a value or an error and act on a store [S]:
    the store is kept when an error is returned. *)
Definition M (S A : Type) : Type := S → Result A * S.

#[global] Instance M_ret {S : Type} : MRet (M S) := λ A a s, (Ok a, s).
#[global] Instance M_bind {S : Type} : MBind (M S) := λ A B f m s,
  match m s with
  | (Ok a, s') => f a s'
  | (Err e, s') => (Err e, s')
  end.

Definition lift {S A : Type} (r : Result A) : M S A := λ s, (r, s).
Definition get {S : Type} : M S S := λ s, (Ok s, s).
Definition put {S : Type} (s : S) : M S unit := λ _, (Ok tt, s).

(** A read [l[i]] that panics out of range. *)
Definition index {A : Type} (l : list A) (i : nat) : Result A :=
  match l !! i with
  | Some x => Ok x
  | None => Err PanicIndex
  end.

(** The same with an [int] index. *)
Definition index_Z {A : Type} (l : list A) (i : Z) : Result A :=
  if decide (i < 0) then Err PanicIndex else index l (Z.to_nat i).

Definition assign_Z {A : Type} (l : list A) (i : Z) (x : A) : Result (list A) :=
  if decide (0 ≤ i < Z.of_nat (length l)) then Ok (<[Z.to_nat i := x]> l)
  else Err PanicIndex.

(** [for i := a; i < a+n && cond(s); i++ { s = body i s }], the body
    possibly panicking. *)
Fixpoint forM_from {S : Type} (a n : nat) (cond : S → bool)
    (body : nat → S → Result S) (s : S) : Result S :=
  match n with
  | O => Ok s
  | Datatypes.S n' =>
      if cond s then body a s ≫= forM_from (Datatypes.S a) n' cond body
      else Ok s
  end.

Definition forM_while {S : Type} (n : nat) (cond : S → bool)
    (body : nat → S → Result S) (s : S) : Result S :=
  forM_from 0 n cond body s.

Definition forM {S : Type} (n : nat) (body : nat → S → Result S) (s : S) : Result S :=
  forM_from 0 n (λ _, true) body s.

(** A write [l[i] = x] that panics out of range. *)
Definition assign {A : Type} (l : list A) (i : nat) (x : A) : Result (list A) :=
  if decide (i < length l)%nat then Ok (<[i := x]> l) else Err PanicIndex.

(** The slice expression [l[lo:hi]] for [lo ≤ hi ≤ len(l)]. *)
Definition slice {A : Type} (l : list A) (lo hi : nat) : list A :=
  take (hi - lo) (drop lo l).

(** The builtin [copy(dst[lo:], src)]: overwrites [min(len(dst)-lo, len(src))]
    elements of [dst] from position [lo] on. *)
Definition copy_at {A : Type} (dst : list A) (lo : nat) (src : list A) : list A :=
  let n := (length src `min` (length dst - lo))%nat in
  take lo dst ++ take n src ++ drop (lo + n) dst.

(** ** Package bitstream *)
Module bitstream.

(** [BytesToBits]: 8 booleans per byte, most significant bit first. *)
Definition BytesToBits (data : list byte) : list bool :=
  if decide (length data = 0%nat) then []
  else
    let bits := replicate (length data * 8) false in
    for_range data (λ i b bits,
      let offset := (i * 8)%nat in
      for_loop 8 (λ j bits,
        <[(offset + j)%nat :=
            Z.land (Z.shiftr (Z_of_byte b) (7 - Z.of_nat j)) 1 =? 1]> bits) bits)
      bits.

(** [BitsToBytes]: packs MSB first into a zeroed buffer of
    [(len(bits)+7)/8] bytes. *)
Definition BitsToBytes (bits : list bool) : list byte :=
  if decide (length bits = 0%nat) then []
  else
    let byteCount := ((length bits + 7) / 8)%nat in
    let bytes := replicate byteCount x00 in
    for_range bits (λ i bit bytes,
      if bit then
        let byteIdx := (i / 8)%nat in
        let bitIdx := 7 - Z.of_nat (i `mod` 8) in
        alter (λ b, byte_of_Z (Z.lor (Z_of_byte b) (Z.shiftl 1 bitIdx))) byteIdx bytes
      else bytes)
      bytes.

End bitstream.

(** ** Package ecc *)
Module ecc.

(** The interface [Scheme]. *)
Record Scheme : Type := {
  EncodeFrame : list byte → Result (list bool);
  DecodeFrame : list bool → Result (list byte)
}.

(** [type ECCScheme uint8]. *)
Definition ECCScheme : Type := byte.
Definition ECCSchemeRepetition3 : ECCScheme := x01.

(** [Repetition3.EncodeFrame]: each data bit three times. *)
Definition Repetition3_EncodeFrame (frame : list byte) : Result (list bool) :=
  let dataBits := bitstream.BytesToBits frame in
  let encodedBits :=
    for_range dataBits (λ _ bit encodedBits, encodedBits ++ [bit; bit; bit])
      ([] : list bool) in
  Ok encodedBits.

(** [Repetition3.DecodeFrame]: majority vote per triple, leftover bits
    dropped. *)
Definition Repetition3_DecodeFrame (bits : list bool) : Result (list byte) :=
  if decide (length bits = 0%nat) then Err ErrInsufficientBits
  else
    let tripleCount := (length bits / 3)%nat in
    if decide (tripleCount = 0%nat) then Err ErrInsufficientBits
    else
      let decodedBits := replicate tripleCount false in
      let decodedBits :=
        for_loop tripleCount (λ i decodedBits,
          let offset := (i * 3)%nat in
          let b1 : bool := bits !!! offset in
          let b2 : bool := bits !!! (offset + 1)%nat in
          let b3 : bool := bits !!! (offset + 2)%nat in
          let ones := 0 in
          let ones := if b1 then ones + 1 else ones in
          let ones := if b2 then ones + 1 else ones in
          let ones := if b3 then ones + 1 else ones in
          if 2 <=? ones then <[i := true]> decodedBits
          else <[i := false]> decodedBits) decodedBits in
      Ok (bitstream.BitsToBytes decodedBits).

Definition Repetition3 : Scheme :=
  {| EncodeFrame := Repetition3_EncodeFrame;
     DecodeFrame := Repetition3_DecodeFrame |}.

(** [GetScheme]. *)
Definition GetScheme (scheme : ECCScheme) : Result Scheme :=
  if decide (scheme = ECCSchemeRepetition3) then Ok Repetition3
  else Err ErrUnsupportedScheme.

End ecc.

(** ** Go's hash/crc32, IEEE polynomial

    The checksum is the standard library's, not this repository's; it is
    written out here after its portable implementation (the byte-wise table
    built by [simpleMakeTable] and the loop of [simpleUpdate]). *)
Module crc32.

Definition IEEE : Z := 0xedb88320.

(** One entry of [simpleMakeTable(IEEE)]. *)
Definition tableEntry (i : Z) : Z :=
  for_loop 8 (λ _ crc,
    if Z.land crc 1 =? 1 then Z.lxor (Z.shiftr crc 1) IEEE
    else Z.shiftr crc 1) i.

Definition IEEETable : list Z :=
  Eval vm_compute in map (λ i, tableEntry (Z.of_nat i)) (seq 0 256).

(** [simpleUpdate]; the complement of a [uint32] is the xor with
    [0xffffffff]. *)
Definition update (crc : Z) (p : list byte) : Z :=
  let crc := Z.lxor crc 0xffffffff in
  let crc :=
    for_range p (λ _ v crc,
      Z.lxor (IEEETable !!! Z.to_nat (Z.lxor (crc `mod` 256) (Z_of_byte v)))
             (Z.shiftr crc 8)) crc in
  Z.lxor crc 0xffffffff.

Definition ChecksumIEEE (data : list byte) : Z := update 0 data.

End crc32.

(** ** Package framing *)
Module framing.

(** [Magic = "EMG0"], as the bytes of the string. *)
Definition Magic : list byte := [x45; x4d; x47; x30].
Definition HeaderSize : nat := 16.
Definition CurrentVersion : byte := x01.

Record Header : Type := {
  HMagic : list byte;
  Version : byte;
  ECCScheme : byte;
  Reserved : byte * byte;
  PayloadLength : Z;
  PayloadCRC32 : Z
}.

(** [binary.BigEndian.PutUint32(b[lo:lo+4], v)]. *)
Definition PutUint32 (b : list byte) (lo : nat) (v : Z) : list byte :=
  let b := <[lo := byte_of_Z (Z.shiftr v 24)]> b in
  let b := <[(lo + 1)%nat := byte_of_Z (Z.shiftr v 16)]> b in
  let b := <[(lo + 2)%nat := byte_of_Z (Z.shiftr v 8)]> b in
  <[(lo + 3)%nat := byte_of_Z v]> b.

(** [binary.BigEndian.Uint32(b[lo:lo+4])]. *)
Definition Uint32 (b : list byte) (lo : nat) : Z :=
  Z.lor (Z.lor (Z.lor (Z_of_byte (b !!! (lo + 3)%nat))
                      (Z.shiftl (Z_of_byte (b !!! (lo + 2)%nat)) 8))
               (Z.shiftl (Z_of_byte (b !!! (lo + 1)%nat)) 16))
        (Z.shiftl (Z_of_byte (b !!! lo)) 24).

(** [BuildFrame]: header (16 bytes) || message. *)
Definition BuildFrame (message : list byte) (eccScheme : byte) : Result (list byte) :=
  let crc := crc32.ChecksumIEEE message in
  let header := replicate HeaderSize x00 in
  let header := copy_at header 0 Magic in
  let header := <[4%nat := CurrentVersion]> header in
  let header := <[5%nat := eccScheme]> header in
  let header := PutUint32 header 8 (uint32 (Z.of_nat (length message))) in
  let header := PutUint32 header 12 crc in
  let frame := replicate (HeaderSize + length message) x00 in
  let frame := copy_at frame 0 header in
  let frame := copy_at frame HeaderSize message in
  Ok frame.

(** [ParseFrame]. *)
Definition ParseFrame (frame : list byte) : Result (Header * list byte) :=
  if decide (length frame < HeaderSize)%nat then Err ErrFrameTooShort
  else
    let magic := slice frame 0 4 in
    if decide (magic ≠ Magic) then Err ErrInvalidMagic
    else
      let header :=
        {| HMagic := magic;
           Version := frame !!! 4%nat;
           ECCScheme := frame !!! 5%nat;
           Reserved := (frame !!! 6%nat, frame !!! 7%nat);
           PayloadLength := Uint32 frame 8;
           PayloadCRC32 := Uint32 frame 12 |} in
      let hi := int_wrap (Z.of_nat HeaderSize + PayloadLength header) in
      if decide (Z.of_nat (length frame) < hi) then Err ErrInvalidLength
      else
        let payload := slice frame HeaderSize (Z.to_nat hi) in
        let calculatedCRC := crc32.ChecksumIEEE payload in
        if decide (calculatedCRC ≠ PayloadCRC32 header) then Err ErrFrameCRCMismatch
        else Ok (header, payload).

End framing.

(** ** The float64 interface

    The operations of [float64] the program uses.  An integral literal
    such as [128.0] is [f_of_Z 128]; a decimal literal [n/d] is the
    quotient of two integers, which in binary64 is the float nearest to
    the decimal, as the compiler produces it. *)
Class Float64 (F : Type) : Type := {
  f_of_Z : Z → F;            (* float64(n) *)
  f_add : F → F → F;
  f_sub : F → F → F;
  f_mul : F → F → F;
  f_div : F → F → F;
  f_lt : F → F → bool;       (* x < y *)
  f_trunc : F → Z;           (* int(x), towards zero *)
  f_sqrt : F → F;            (* math.Sqrt *)
  f_cos : F → F;             (* math.Cos *)
  f_pi : F                   (* math.Pi *)
}.

Declare Scope f64_scope.
Delimit Scope f64_scope with f64.
Infix "+" := f_add : f64_scope.
Infix "-" := f_sub : f64_scope.
Infix "*" := f_mul : f64_scope.
Infix "/" := f_div : f64_scope.
Notation "x <? y" := (f_lt x y) : f64_scope.
Notation "x >? y" := (f_lt y x) : f64_scope.

Definition f_lit {F : Type} `{Float64 F} (n d : Z) : F := (f_of_Z n / f_of_Z d)%f64.

#[global] Instance Float64_inhabited {F : Type} `{Float64 F} : Inhabited F :=
  populate (f_of_Z 0).

(** *** Instance: the real numbers (exact arithmetic) *)
Module RealArith.

Definition Rtrunc (r : R) : Z :=
  if Rlt_dec r 0 then (- Int_part (- r)) else Int_part r.

#[global] Instance R_Float64 : Float64 R := {|
  f_of_Z := IZR;
  f_add := Rplus;
  f_sub := Rminus;
  f_mul := Rmult;
  f_div := Rdiv;
  f_lt := λ x y, if Rlt_dec x y then true else false;
  f_trunc := Rtrunc;
  f_sqrt := R_sqrt.sqrt;
  f_cos := Rtrigo_def.cos;
  f_pi := PI
|}.

End RealArith.

(** *** Instance: IEEE 754 binary64 (the arithmetic of the machine) *)
Module Binary64.

Definition of_Z (z : Z) : float :=
  if 0 <=? z then of_uint63 (Uint63.of_Z z)
  else PrimFloat.opp (of_uint63 (Uint63.of_Z (- z))).

(** [int(x)]: the integral part of [m * 2^e]; what an infinity or a NaN
    converts to depends on the machine (amd64 gives the least [int]). *)
Definition trunc (x : float) : Z :=
  match Prim2SF x with
  | S754_zero _ => 0
  | S754_finite s m e =>
      let v := if 0 <=? e then Z.shiftl (Z.pos m) e else Z.shiftr (Z.pos m) (- e) in
      if s then - v else v
  | _ => - 2 ^ 63
  end.

Definition Pi : float := 0x1.921fb54442d18p+1%float.

(** [math.Cos] as Go's portable implementation computes it (Cephes
    [cos]: reduction modulo pi/4 in three parts, then a polynomial in
    [z*z]).  Arguments from [2^29] on go through the Payne-Hanek
    reduction in Go, which is not written out: they give NaN here; the
    arguments of the cosine table are below 21. *)
Definition cos (x : float) : float :=
  let PI4A := 0x1.921fb4p-1%float in
  let PI4B := 0x1.4442dp-25%float in
  let PI4C := 0x1.8469898cc517p-49%float in
  let x := PrimFloat.abs x in
  if negb (PrimFloat.ltb x 0x1p29%float) then nan
  else
    let j := trunc (x * 0x1.45f306dc9c883p+0)%float in   (* x * (4/Pi) *)
    let y := of_Z j in
    let '(j, y) := if Z.land j 1 =? 1 then (j + 1, (y + 1)%float) else (j, y) in
    let j := Z.land j 7 in
    let z := (((x - y * PI4A) - y * PI4B) - y * PI4C)%float in
    let sign := false in
    let '(j, sign) := if 3 <? j then (j - 4, negb sign) else (j, sign) in
    let sign := if 1 <? j then negb sign else sign in
    let zz := (z * z)%float in
    let y :=
      if (j =? 1) || (j =? 2) then
        (z + z * zz * ((((((0x1.5d8fd1fd19ccdp-33 * zz) + -0x1.ae5e5a9291f5dp-26) * zz
               + 0x1.71de3567d48a1p-19) * zz + -0x1.a01a019bfdf03p-13) * zz
               + 0x1.111111110f7dp-7) * zz + -0x1.5555555555548p-3))%float
      else
        (1 - 0.5 * zz + zz * zz * ((((((-0x1.8fa49a0861a9bp-37 * zz) + 0x1.1ee9d7b4e3f05p-29) * zz
               + -0x1.27e4f7eac4bc6p-22) * zz + 0x1.a01a019c844f5p-16) * zz
               + -0x1.6c16c16c14f91p-10) * zz + 0x1.555555555554bp-5))%float in
    if sign then PrimFloat.opp y else y.

#[global] Instance b64_Float64 : Float64 float := {|
  f_of_Z := of_Z;
  f_add := PrimFloat.add;
  f_sub := PrimFloat.sub;
  f_mul := PrimFloat.mul;
  f_div := PrimFloat.div;
  f_lt := PrimFloat.ltb;
  f_trunc := trunc;
  f_sqrt := PrimFloat.sqrt;
  f_cos := cos;
  f_pi := Pi
|}.

End Binary64.

(** ** Package dct *)
Module dct.
Section with_float64.
Context {F : Type} `{Float64 F}.
Local Open Scope f64_scope.

(** [var cosTable [8][8]float64] as [init] leaves it. *)
Definition cosTable : list (list F) :=
  let cosTable := replicate 8 (replicate 8 (f_of_Z 0)) in
  for_loop 8 (λ i cosTable,
    for_loop 8 (λ j cosTable,
      <[i := <[j := f_cos (f_of_Z (2 * Z.of_nat i + 1) * f_of_Z (Z.of_nat j)
                             * f_pi / f_of_Z 16)]> (cosTable !!! i)]> cosTable)
      cosTable) cosTable.

(** [DCT8x8(src, dst)]: the contents of [dst] on return.  The table is
    a global that nothing writes after [init]; it is read once here. *)
Definition DCT8x8 (src dst : list F) : list F :=
  let cosTable := cosTable in
  let temp := replicate 64 (f_of_Z 0) in
  let temp :=
    for_loop 8 (λ row temp,
      for_loop 8 (λ freq temp,
        let sum := f_of_Z 0 in
        let sum :=
          for_loop 8 (λ col sum,
            sum + src !!! (row * 8 + col)%nat * (cosTable !!! col) !!! freq) sum in
        let c := f_sqrt (f_of_Z 2 / f_of_Z 8) in
        let c := if decide (freq = 0%nat) then f_sqrt (f_of_Z 1 / f_of_Z 8) else c in
        <[(row * 8 + freq)%nat := c * sum]> temp) temp) temp in
  for_loop 8 (λ colFreq dst,
    for_loop 8 (λ rowFreq dst,
      let sum := f_of_Z 0 in
      let sum :=
        for_loop 8 (λ row sum,
          sum + temp !!! (row * 8 + colFreq)%nat * (cosTable !!! row) !!! rowFreq) sum in
      let c := f_sqrt (f_of_Z 2 / f_of_Z 8) in
      let c := if decide (rowFreq = 0%nat) then f_sqrt (f_of_Z 1 / f_of_Z 8) else c in
      <[(rowFreq * 8 + colFreq)%nat := c * sum]> dst) dst) dst.

(** [IDCT8x8(src, dst)]: the contents of [dst] on return. *)
Definition IDCT8x8 (src dst : list F) : list F :=
  let cosTable := cosTable in
  let temp := replicate 64 (f_of_Z 0) in
  let temp :=
    for_loop 8 (λ colFreq temp,
      for_loop 8 (λ row temp,
        let sum := f_of_Z 0 in
        let sum :=
          for_loop 8 (λ rowFreq sum,
            let c := f_sqrt (f_of_Z 2 / f_of_Z 8) in
            let c := if decide (rowFreq = 0%nat) then f_sqrt (f_of_Z 1 / f_of_Z 8) else c in
            sum + c * src !!! (rowFreq * 8 + colFreq)%nat * (cosTable !!! row) !!! rowFreq) sum in
        <[(row * 8 + colFreq)%nat := sum]> temp) temp) temp in
  for_loop 8 (λ row dst,
    for_loop 8 (λ col dst,
      let sum := f_of_Z 0 in
      let sum :=
        for_loop 8 (λ colFreq sum,
          let c := f_sqrt (f_of_Z 2 / f_of_Z 8) in
          let c := if decide (colFreq = 0%nat) then f_sqrt (f_of_Z 1 / f_of_Z 8) else c in
          sum + c * temp !!! (row * 8 + colFreq)%nat * (cosTable !!! col) !!! colFreq) sum in
      <[(row * 8 + col)%nat := sum]> dst) dst) dst.

End with_float64.
End dct.

(** ** Package ycbcr *)
Module ycbcr.

Record Plane (F : Type) : Type := {
  Pix : list F;
  Width : Z;
  Height : Z;
  Stride : Z
}.
Arguments Pix {F} _.
Arguments Width {F} _.
Arguments Height {F} _.
Arguments Stride {F} _.

(** What the code uses of Go's [image.Image] and [color.Color]: the
    size of the bounds, and the colour at an offset from the corner of
    the bounds, which is either a [color.YCbCr] or a colour known by
    its [RGBA()] components. *)
Inductive Color : Type :=
  | ColorYCbCr (Y Cb Cr : byte)
  | ColorRGBA16 (r g b a : Z).

Record Image : Type := {
  Dx : Z;
  Dy : Z;
  At : Z → Z → Color
}.

Section with_float64.
Context {F : Type} `{Float64 F}.
Local Open Scope f64_scope.

(** [ImageToYCbCrPlanes]. *)
Definition ImageToYCbCrPlanes (img : Image) : Plane F * Plane F * Plane F :=
  let width := Dx img in
  let height := Dy img in
  let stride := width in
  let n := Z.to_nat (int_wrap (width * height)) in
  let yPix := replicate n (f_of_Z 0) in
  let cbPix := replicate n (f_of_Z 0) in
  let crPix := replicate n (f_of_Z 0) in
  let '(yPix, cbPix, crPix) :=
    for_loop (Z.to_nat height) (λ y pix,
      for_loop (Z.to_nat width) (λ x '(yPix, cbPix, crPix),
        let idx := Z.to_nat (int_wrap (Z.of_nat y * stride + Z.of_nat x)) in
        match At img (Z.of_nat x) (Z.of_nat y) with
        | ColorYCbCr Y Cb Cr =>
            (<[idx := f_of_Z (Z_of_byte Y)]> yPix,
             <[idx := f_of_Z (Z_of_byte Cb)]> cbPix,
             <[idx := f_of_Z (Z_of_byte Cr)]> crPix)
        | ColorRGBA16 r g b _ =>
            let r8 := f_of_Z (Z.shiftr r 8) in
            let g8 := f_of_Z (Z.shiftr g 8) in
            let b8 := f_of_Z (Z.shiftr b 8) in
            (<[idx := f_lit 299 1000 * r8 + f_lit 587 1000 * g8 + f_lit 114 1000 * b8]> yPix,
             <[idx := f_lit (-168736) 1000000 * r8 - f_lit 331264 1000000 * g8
                      + f_lit 5 10 * b8 + f_of_Z 128]> cbPix,
             <[idx := f_lit 5 10 * r8 - f_lit 418688 1000000 * g8
                      - f_lit 81312 1000000 * b8 + f_of_Z 128]> crPix)
        end) pix) (yPix, cbPix, crPix) in
  ({| Pix := yPix; Width := width; Height := height; Stride := stride |},
   {| Pix := cbPix; Width := width; Height := height; Stride := stride |},
   {| Pix := crPix; Width := width; Height := height; Stride := stride |}).

(** [clamp]: to [0, 255], rounded, as a [uint8]. *)
Definition clamp (v : F) : byte :=
  if v <? f_of_Z 0 then x00
  else if v >? f_of_Z 255 then xff
  else byte_of_Z (f_trunc (v + f_lit 5 10)).

(** [YCbCrPlanesToImage]: an [*image.RGBA] of the size of [y]; the
    colour [color.RGBA{R, G, B, 255}] has the components
    [R * 0x101, ...] under [RGBA()]. *)
Definition YCbCrPlanesToImage (y cb cr : Plane F) : Result Image :=
  let width := Width y in
  let height := Height y in
  pixels ← forM (Z.to_nat height) (λ yIdx pixels,
    forM (Z.to_nat width) (λ xIdx pixels,
      let idx := int_wrap (Z.of_nat yIdx * Stride y + Z.of_nat xIdx) in
      Y ← index_Z (Pix y) idx;
      Cb0 ← index_Z (Pix cb) idx;
      Cr0 ← index_Z (Pix cr) idx;
      let Cb := Cb0 - f_of_Z 128 in
      let Cr := Cr0 - f_of_Z 128 in
      let r := Y + f_lit 1402 1000 * Cr in
      let g := Y - f_lit 344136 1000000 * Cb - f_lit 714136 1000000 * Cr in
      let b := Y + f_lit 1772 1000 * Cb in
      let r8 := clamp r in
      let g8 := clamp g in
      let b8 := clamp b in
      Ok (pixels ++ [(r8, g8, b8)])) pixels) [];
  Ok {| Dx := width; Dy := height;
        At := λ x y,
          if decide (0 ≤ x < width ∧ 0 ≤ y < height) then
            match pixels !! Z.to_nat (y * width + x) with
            | Some (r8, g8, b8) =>
                ColorRGBA16 (Z_of_byte r8 * 0x101) (Z_of_byte g8 * 0x101)
                            (Z_of_byte b8 * 0x101) 0xffff
            | None => ColorRGBA16 0 0 0 0
            end
          else ColorRGBA16 0 0 0 0 |}.

End with_float64.
End ycbcr.

(** ** Package imgutil

    The decoders and encoders of Go's [image], [image/png] and
    [image/jpeg] are outside the repository: they are the fields of
    [Codecs]. *)
Class Codecs : Type := {
  image_Decode : list byte → Result (ycbcr.Image * string);
  png_Encode : ycbcr.Image → Result (list byte);
  jpeg_Encode : ycbcr.Image → Z → Result (list byte);
  strings_ToLower : string → string
}.

Module imgutil.
Section with_codecs.
Context `{Codecs}.

Definition LoadImage (data : list byte) : Result (ycbcr.Image * string) :=
  on_error (ErrorfWrap "failed to decode image") (image_Decode data).

Definition EncodeImage (img : ycbcr.Image) (format : string) (quality : Z)
    : Result (list byte) :=
  let format := strings_ToLower format in
  if decide (format = "png" ∨ format = "image/png") then
    on_error (ErrorfWrap "failed to encode PNG") (png_Encode img)
  else if decide (format = "jpg" ∨ format = "jpeg" ∨ format = "image/jpeg") then
    on_error (ErrorfWrap "failed to encode JPEG") (jpeg_Encode img quality)
  else Err (ErrorfStr "unsupported format" format).

End with_codecs.

(** [CapacityBits]: one bit per whole 8x8 block. *)
Definition CapacityBits (width height : Z) : Z :=
  let blocksAcross := width `quot` 8 in
  let blocksDown := height `quot` 8 in
  int_wrap (blocksAcross * blocksDown).

End imgutil.

(** ** Package emganography *)
Module emganography.
Import ycbcr.

Record CapacityInfo : Type := {
  CIWidth : Z;
  CIHeight : Z;
  BlocksAcross : Z;
  BlocksDown : Z;
  CapacityBits : Z;
  MaxPayloadBytes : Z;
  MaxUTF8Chars : Z
}.

Record DCTConfig (F : Type) : Type := {
  ECC : ecc.ECCScheme;
  Delta : F;
  MinGap : F;
  UseAllBlocks : bool;
  OutputFormat : string
}.
Arguments ECC {F} _.
Arguments Delta {F} _.
Arguments MinGap {F} _.
Arguments UseAllBlocks {F} _.
Arguments OutputFormat {F} _.

Record EmbedOptions (F : Type) : Type := {
  Config : DCTConfig F;
  JPEGQuality : Z
}.
Arguments Config {F} _.
Arguments JPEGQuality {F} _.

Section with_float64.
Context {F : Type} `{Float64 F}.
Local Open Scope f64_scope.

Definition DefaultDCTConfig : DCTConfig F :=
  {| ECC := ecc.ECCSchemeRepetition3;
     Delta := f_of_Z 10;
     MinGap := f_of_Z 5;
     UseAllBlocks := true;
     OutputFormat := "" |}.

Definition DefaultEmbedOptions : EmbedOptions F :=
  {| Config := DefaultDCTConfig; JPEGQuality := 90 |}.

(** The loop that both [embedBitsIntoDCT] and [extractBitsFromDCT] run
    on block [(bx, by_)] ([by] in the source): the 64 samples, centred, into [block]. *)
Definition loadBlock (yPlane : Plane F) (pix : list F) (bx by_ : nat)
    (block : list F) : Result (list F) :=
  forM 8 (λ y block,
    forM 8 (λ x block,
      let srcY := Z.of_nat (by_ * 8 + y) in
      let srcX := Z.of_nat (bx * 8 + x) in
      v ← index_Z pix (int_wrap (srcY * Stride yPlane + srcX));
      Ok (<[(y * 8 + x)%nat := v - f_of_Z 128]> block)) block) block.

(** The write-back loop of [embedBitsIntoDCT] on block [(bx, by_)] ([by] in the source). *)
Definition storeBlock (yPlane : Plane F) (pix : list F) (bx by_ : nat)
    (block : list F) : Result (list F) :=
  forM 8 (λ y pix,
    forM 8 (λ x pix,
      let srcY := Z.of_nat (by_ * 8 + y) in
      let srcX := Z.of_nat (bx * 8 + x) in
      let val := block !!! (y * 8 + x)%nat + f_of_Z 128 in
      let val := if val <? f_of_Z 0 then f_of_Z 0 else val in
      let val := if val >? f_of_Z 255 then f_of_Z 255 else val in
      assign_Z pix (int_wrap (srcY * Stride yPlane + srcX)) val) pix) pix.

(** The coefficient rule of [embedBitsIntoDCT] (the body of
    [if bitIdx < len(bits)]): coefficients (2,2) and (2,3) are placed
    symmetrically around their midpoint, [MinGap + Delta] apart. *)
Definition embedCoefficients (config : DCTConfig F) (bit : bool)
    (dctBlock : list F) : list F :=
  let coeff22 := dctBlock !!! (2 * 8 + 2)%nat in
  let coeff23 := dctBlock !!! (2 * 8 + 3)%nat in
  let midpoint := (coeff22 + coeff23) / f_of_Z 2 in
  let requiredGap := MinGap config + Delta config in
  if bit then
    let dctBlock := <[(2 * 8 + 2)%nat := midpoint + requiredGap / f_of_Z 2]> dctBlock in
    <[(2 * 8 + 3)%nat := midpoint - requiredGap / f_of_Z 2]> dctBlock
  else
    let dctBlock := <[(2 * 8 + 2)%nat := midpoint - requiredGap / f_of_Z 2]> dctBlock in
    <[(2 * 8 + 3)%nat := midpoint + requiredGap / f_of_Z 2]> dctBlock.

(** The comparison of [extractBitsFromDCT]: [coeff22 > coeff23]. *)
Definition extractCoefficientBit (dctBlock : list F) : bool :=
  let coeff22 := dctBlock !!! (2 * 8 + 2)%nat in
  let coeff23 := dctBlock !!! (2 * 8 + 3)%nat in
  coeff22 >? coeff23.

(** [embedBitsIntoDCT]: the plane after the call (the Go function
    changes [yPlane.Pix] in place and returns no error of its own). *)
Definition embedBitsIntoDCT (yPlane : Plane F) (bits : list bool)
    (config : DCTConfig F) : Result (Plane F) :=
  let blocksAcross := Width yPlane `quot` 8 in
  let blocksDown := Height yPlane `quot` 8 in
  let bitIdx := 0%nat in
  let block := replicate 64 (f_of_Z 0) in
  let dctBlock := replicate 64 (f_of_Z 0) in
  '(pix, _, _, _) ←
    forM (Z.to_nat blocksDown) (λ by_ st,
      forM (Z.to_nat blocksAcross) (λ bx '(pix, block, dctBlock, bitIdx),
        block ← loadBlock yPlane pix bx by_ block;
        let dctBlock := dct.DCT8x8 block dctBlock in
        let '(dctBlock, bitIdx) :=
          match bits !! bitIdx with
          | Some bit => (embedCoefficients config bit dctBlock, Datatypes.S bitIdx)
          | None => (dctBlock, bitIdx)
          end in
        let block := dct.IDCT8x8 dctBlock block in
        pix ← storeBlock yPlane pix bx by_ block;
        Ok (pix, block, dctBlock, bitIdx)) st)
      (Pix yPlane, block, dctBlock, bitIdx);
  Ok {| Pix := pix; Width := Width yPlane; Height := Height yPlane;
        Stride := Stride yPlane |}.

(** [extractBitsFromDCT]. *)
Definition extractBitsFromDCT (yPlane : Plane F) (maxBits : Z) : Result (list bool) :=
  let blocksAcross := Width yPlane `quot` 8 in
  let blocksDown := Height yPlane `quot` 8 in
  if decide (maxBits < 0) then Err PanicMakeslice
  else
    let bits : list bool := [] in
    let block := replicate 64 (f_of_Z 0) in
    let dctBlock := replicate 64 (f_of_Z 0) in
    let more (st : list bool * list F * list F) : bool :=
      bool_decide (Z.of_nat (length st.1.1) < maxBits) in
    '(bits, _, _) ←
      forM_while (Z.to_nat blocksDown) more (λ by_ st,
        forM_while (Z.to_nat blocksAcross) more (λ bx '(bits, block, dctBlock),
          block ← loadBlock yPlane (Pix yPlane) bx by_ block;
          let dctBlock := dct.DCT8x8 block dctBlock in
          let bit := extractCoefficientBit dctBlock in
          Ok (bits ++ [bit], block, dctBlock)) st)
        (bits, block, dctBlock);
    Ok bits.

Section with_codecs.
Context `{Codecs}.

(** [EmbedMessageDCT], on a store that holds the luminance plane from
    the moment the conversion has produced it ([None] before).  A nil
    [input] or [opts] is [None]. *)
Definition EmbedMessageDCT (input : option (list byte)) (message : list byte)
    (opts : option (EmbedOptions F)) : M (option (Plane F)) (list byte) :=
  let opts := match opts with None => DefaultEmbedOptions | Some o => o end in
  match input with
  | None => lift (Err (Errorf "input data required" []))
  | Some input =>
      '(img, format) ←
        lift (on_error (ErrorfWrap "failed to load image") (imgutil.LoadImage input));
      let '(yPlane, cbPlane, crPlane) := ImageToYCbCrPlanes img in
      _ ← put (Some yPlane);
      frame ← lift (on_error (ErrorfWrap "failed to build frame")
                      (framing.BuildFrame message (ECC (Config opts))));
      eccScheme ← lift (on_error (ErrorfWrap "failed to get ECC scheme")
                          (ecc.GetScheme (ECC (Config opts))));
      encodedBits ← lift (on_error (ErrorfWrap "failed to ECC encode")
                            (ecc.EncodeFrame eccScheme frame));
      let capacityBits := imgutil.CapacityBits (Width yPlane) (Height yPlane) in
      if decide (Z.of_nat (length encodedBits) > capacityBits) then
        lift (Err ErrMessageTooLong)
      else
        yPlane ← lift (on_error (ErrorfWrap "failed to embed bits")
                         (embedBitsIntoDCT yPlane encodedBits (Config opts)));
        _ ← put (Some yPlane);
        outputImg ← lift (YCbCrPlanesToImage yPlane cbPlane crPlane);
        let outputFormat := OutputFormat (Config opts) in
        let outputFormat := if decide (outputFormat = "") then format else outputFormat in
        let outputFormat := if decide (outputFormat = "") then "png" else outputFormat in
        lift (imgutil.EncodeImage outputImg outputFormat (JPEGQuality opts))
  end.

(** [extractBitsFromDCT] as [ExtractMessageDCT] calls it: the store is
    the list of the [maxBits] of the calls made so far. *)
Definition extractCall (yPlane : Plane F) (maxBits : Z) : M (list Z) (list bool) :=
  λ calls, (extractBitsFromDCT yPlane maxBits, calls ++ [maxBits]).

(** What [ExtractMessageDCT] does with an error of [ParseFrame]. *)
Definition parseError (e : error) : error :=
  if errors_Is_ErrFrameCRCMismatch e then ErrCRCMismatch
  else ErrorfWrap2 ErrFrameCorrupt e.

(** The re-decoding under the scheme the header names, which both
    branches of [ExtractMessageDCT] end with. *)
Definition redecode (header : framing.Header) (payload : list byte)
    (extractedBits : list bool) (unsupported : string) : Result (list byte) :=
  if decide (framing.ECCScheme header ≠ ecc.ECCSchemeRepetition3) then
    eccScheme ← on_error (λ _, Errorf unsupported [Z_of_byte (framing.ECCScheme header)])
                  (ecc.GetScheme (framing.ECCScheme header));
    frameBytes ← on_error (ErrorfWrap "failed to ECC decode with correct scheme")
                   (ecc.DecodeFrame eccScheme extractedBits);
    '(_, payload) ← on_error parseError (framing.ParseFrame frameBytes);
    Ok payload
  else Ok payload.

(** [ExtractMessageDCT] from the comment "Try to parse just the header
    fields manually" on (the rest of the function once the header probe
    has left [extractedBits] and [frameBytes]). *)
Definition afterHeaderProbe (yPlane : Plane F) (capacityBits : Z)
    (eccScheme : ecc.Scheme) (extractedBits : list bool) (frameBytes : list byte)
    : M (list Z) (list byte) :=
  if decide (length frameBytes < framing.HeaderSize)%nat then
    lift (Err (Errorf "insufficient data for frame header" []))
  else
    let magic := slice frameBytes 0 4 in
    if decide (magic ≠ framing.Magic) then
      extractedBits ← extractCall yPlane capacityBits;
      frameBytes ← lift (on_error (ErrorfWrap "failed to ECC decode")
                           (ecc.DecodeFrame eccScheme extractedBits));
      '(header, payload) ← lift (on_error parseError (framing.ParseFrame frameBytes));
      lift (redecode header payload extractedBits "unsupported ECC scheme")
    else
      let payloadLength :=
        Z.lor (Z.lor (Z.lor (Z.shiftl (Z_of_byte (frameBytes !!! 8%nat)) 24)
                            (Z.shiftl (Z_of_byte (frameBytes !!! 9%nat)) 16))
                     (Z.shiftl (Z_of_byte (frameBytes !!! 10%nat)) 8))
              (Z_of_byte (frameBytes !!! 11%nat)) in
      if decide (payloadLength > 1000000) then
        lift (Err (Errorf "invalid payload length in header" [payloadLength]))
      else
        let totalFrameBytes := int_wrap (Z.of_nat framing.HeaderSize + payloadLength) in
        let totalFrameBits := int_wrap (totalFrameBytes * 8 * 3) in
        if decide (totalFrameBits > capacityBits) then
          lift (Err (Errorf "frame requires bits but capacity is only"
                       [totalFrameBits; capacityBits]))
        else
          extractedBits ← extractCall yPlane totalFrameBits;
          frameBytes ← lift (on_error (ErrorfWrap "failed to ECC decode full frame")
                               (ecc.DecodeFrame eccScheme extractedBits));
          '(header, payload) ← lift (on_error parseError (framing.ParseFrame frameBytes));
          lift (redecode header payload extractedBits "unsupported ECC scheme in frame").

(** [ExtractMessageDCT]: the header probe, then [afterHeaderProbe]. *)
Definition ExtractMessageDCT (input : list byte) : M (list Z) (list byte) :=
  '(img, _) ← lift (on_error (ErrorfWrap "failed to load image") (imgutil.LoadImage input));
  let '(yPlane, _, _) := ImageToYCbCrPlanes img in
  eccScheme ← lift (on_error (ErrorfWrap "failed to get ECC scheme")
                      (ecc.GetScheme ecc.ECCSchemeRepetition3));
  let capacityBits := imgutil.CapacityBits (Width yPlane) (Height yPlane) in
  let minBitsForHeader := (Z.of_nat framing.HeaderSize * 8 * 3)%Z in
  let extractBits := minBitsForHeader in
  let extractBits := if decide (capacityBits < extractBits) then capacityBits else extractBits in
  extractedBits ← extractCall yPlane extractBits;
  frameBytes ← lift (on_error (ErrorfWrap "failed to ECC decode header")
                       (ecc.DecodeFrame eccScheme extractedBits));
  '(extractedBits, frameBytes) ←
    (if decide (length frameBytes < framing.HeaderSize)%nat then
       extractedBits ← extractCall yPlane capacityBits;
       frameBytes ← lift (on_error (ErrorfWrap "failed to ECC decode")
                            (ecc.DecodeFrame eccScheme extractedBits));
       mret (extractedBits, frameBytes)
     else mret (extractedBits, frameBytes));
  afterHeaderProbe yPlane capacityBits eccScheme extractedBits frameBytes.

(** The expansion factor [GetCapacityInfoFromData] measures on a frame
    of [HeaderSize + 1] zero bytes. *)
Definition expansionFactor (scheme : ecc.Scheme) : Result Z :=
  let testFrame := replicate (framing.HeaderSize + 1) x00 in
  encodedBits ← on_error (ErrorfWrap "failed to encode test frame")
                  (ecc.EncodeFrame scheme testFrame);
  Ok (Z.of_nat (length encodedBits) `quot` Z.of_nat (length testFrame * 8)).

(** [GetCapacityInfoFromData]. *)
Definition GetCapacityInfoFromData (data : list byte) (eccScheme : ecc.ECCScheme)
    : Result CapacityInfo :=
  '(img, _) ← on_error (ErrorfWrap "failed to load image") (imgutil.LoadImage data);
  let '(yPlane, _, _) := ImageToYCbCrPlanes img in
  let width := Width yPlane in
  let height := Height yPlane in
  let blocksAcross := width `quot` 8 in
  let blocksDown := height `quot` 8 in
  let capacityBits := int_wrap (blocksAcross * blocksDown) in
  scheme ← on_error (ErrorfWrap "failed to get ECC scheme") (ecc.GetScheme eccScheme);
  expansionFactor ← expansionFactor scheme;
  if decide (int_wrap (8 * expansionFactor) = 0) then Err PanicDivide
  else
    let maxFrameBytes := capacityBits `quot` int_wrap (8 * expansionFactor) in
    let maxPayloadBytes := int_wrap (maxFrameBytes - Z.of_nat framing.HeaderSize) in
    let maxPayloadBytes := if decide (maxPayloadBytes < 0) then 0 else maxPayloadBytes in
    let maxUTF8Chars := f_trunc (f_of_Z maxPayloadBytes / f_lit 15 10) in
    Ok {| CIWidth := width; CIHeight := height;
          BlocksAcross := blocksAcross; BlocksDown := blocksDown;
          CapacityBits := capacityBits;
          MaxPayloadBytes := maxPayloadBytes;
          MaxUTF8Chars := maxUTF8Chars |}.

End with_codecs.
End with_float64.
End emganography.

(** * Vocabulary of the statements *)

Import ycbcr emganography.

(** ** Bits and triples *)

(** The bit of byte [q] that comes from position [8q + j] of the input,
    among the first [n] bits. *)
Definition packed_bit (bits : list bool) (n q j : nat) : bool :=
  bool_decide (q * 8 + j < n)%nat && default false (bits !! (q * 8 + j)%nat).

(** Each bit three times. *)
Definition triples (l : list bool) : list bool := l ≫= λ b, [b; b; b].

(** The vote of [Repetition3.DecodeFrame] on one triple. *)
Definition majority (b1 b2 b3 : bool) : bool :=
  let ones := 0 in
  let ones := if b1 then ones + 1 else ones in
  let ones := if b2 then ones + 1 else ones in
  let ones := if b3 then ones + 1 else ones in
  2 <=? ones.

(** ** Frames *)

(** The value of four bytes read big-endian. *)
Definition be32_value (b0 b1 b2 b3 : byte) : Z :=
  ((Z_of_byte b0 * 256 + Z_of_byte b1) * 256 + Z_of_byte b2) * 256 + Z_of_byte b3.

(** What a frame declares, read off its bytes: the payload length (bytes
    8 to 11), the checksum (bytes 12 to 15), the payload slice and the
    header. *)
Definition declared_length (f : list byte) : Z :=
  be32_value (f !!! 8%nat) (f !!! 9%nat) (f !!! 10%nat) (f !!! 11%nat).

Definition stored_crc (f : list byte) : Z :=
  be32_value (f !!! 12%nat) (f !!! 13%nat) (f !!! 14%nat) (f !!! 15%nat).

Definition payload_of (f : list byte) : list byte :=
  take (Z.to_nat (declared_length f)) (drop 16 f).

Definition header_of (f : list byte) : framing.Header :=
  {| framing.HMagic := take 4 f;
     framing.Version := f !!! 4%nat;
     framing.ECCScheme := f !!! 5%nat;
     framing.Reserved := (f !!! 6%nat, f !!! 7%nat);
     framing.PayloadLength := declared_length f;
     framing.PayloadCRC32 := stored_crc f |}.

(** The outcomes of parsing [f], by the first check that fails. *)
Inductive ParseOutcome (f : list byte) : Result (framing.Header * list byte) → Prop :=
  | parse_too_short :
      (length f < 16)%nat →
      ParseOutcome f (Err ErrFrameTooShort)
  | parse_invalid_magic :
      (16 ≤ length f)%nat → take 4 f ≠ framing.Magic →
      ParseOutcome f (Err ErrInvalidMagic)
  | parse_invalid_length :
      (16 ≤ length f)%nat → take 4 f = framing.Magic →
      Z.of_nat (length f) < 16 + declared_length f →
      ParseOutcome f (Err ErrInvalidLength)
  | parse_crc_mismatch :
      (16 ≤ length f)%nat → take 4 f = framing.Magic →
      16 + declared_length f ≤ Z.of_nat (length f) →
      crc32.ChecksumIEEE (payload_of f) ≠ stored_crc f →
      ParseOutcome f (Err ErrFrameCRCMismatch)
  | parse_ok :
      (16 ≤ length f)%nat → take 4 f = framing.Magic →
      16 + declared_length f ≤ Z.of_nat (length f) →
      crc32.ChecksumIEEE (payload_of f) = stored_crc f →
      ParseOutcome f (Ok (header_of f, payload_of f)).

(** The frame [BuildFrame] makes: the sixteen header bytes, then the
    message. *)
Definition frame_bytes (message : list byte) (eccScheme : byte) : list byte :=
  let len := uint32 (Z.of_nat (length message)) in
  let crc := crc32.ChecksumIEEE message in
  [x45; x4d; x47; x30; framing.CurrentVersion; eccScheme; x00; x00;
   byte_of_Z (Z.shiftr len 24); byte_of_Z (Z.shiftr len 16);
   byte_of_Z (Z.shiftr len 8); byte_of_Z len;
   byte_of_Z (Z.shiftr crc 24); byte_of_Z (Z.shiftr crc 16);
   byte_of_Z (Z.shiftr crc 8); byte_of_Z crc] ++ message.

(** The frame with the version byte and the two reserved bytes replaced. *)
Definition with_version_reserved (f : list byte) (v r1 r2 : byte) : list byte :=
  <[4%nat := v]> (<[6%nat := r1]> (<[7%nat := r2]> f)).

(** ** The reference transform *)

(** [f 0 + ... + f (n-1)]. *)
Fixpoint Rsum (n : nat) (f : nat → R) : R :=
  match n with
  | O => 0%R
  | Datatypes.S n' => (Rsum n' f + f n')%R
  end.

(** The normalisation [C(k)]. *)
Definition dct_norm (k : nat) : R :=
  if decide (k = 0%nat) then R_sqrt.sqrt (1 / 8) else R_sqrt.sqrt (2 / 8).

(** The reference formula of the 2D DCT-II of an 8x8 block [x], stored
    row-major: the coefficient of row frequency [u] and column frequency
    [v]. *)
Definition dct_reference (x : list R) (u v : nat) : R :=
  (dct_norm u * dct_norm v *
   Rsum 8 (λ row, Rsum 8 (λ col,
     x !!! (row * 8 + col)%nat
     * Rtrigo_def.cos (IZR (2 * Z.of_nat row + 1) * IZR (Z.of_nat u) * PI / 16)
     * Rtrigo_def.cos (IZR (2 * Z.of_nat col + 1) * IZR (Z.of_nat v) * PI / 16))))%R.

(** The 1D transform of row [row] at frequency [freq]. *)
Definition row_pass (src : list R) (row freq : nat) : R :=
  (dct_norm freq *
   Rsum 8 (λ col, src !!! (row * 8 + col)%nat
                  * Rtrigo_def.cos (IZR (2 * Z.of_nat col + 1) * IZR (Z.of_nat freq)
                                    * PI / 16)))%R.

(** ** Capacity *)

(** The capacity snapshot of a [w] by [h] image under repetition-3, the
    character estimate left as the program computes it. *)
Definition capacity_of {F : Type} `{Float64 F} (w h : Z) : CapacityInfo :=
  let capacityBits := (w `div` 8) * (h `div` 8) in
  let maxPayloadBytes := 0 `max` (capacityBits `div` 24 - 16) in
  {| CIWidth := w; CIHeight := h;
     BlocksAcross := w `div` 8; BlocksDown := h `div` 8;
     CapacityBits := capacityBits;
     MaxPayloadBytes := maxPayloadBytes;
     MaxUTF8Chars := f_trunc (f_of_Z maxPayloadBytes / f_lit 15 10)%f64 |}.

(** Where the exact quotient of a significand [m] by [1.5] lies between
    two consecutive integers, from the remainder [rho] of [4 m] by 3: on
    the lower one, or nearer to the lower or to the upper one
    ([SpecFloat]'s [location]). *)
Definition third_location (rho : Z) : location :=
  if rho =? 0 then loc_Exact else loc_Inexact (if rho =? 1 then Lt else Gt).

(** ** Concrete collaborators and images for the worked cases *)

(** A decoder that yields the image [img] with format ["png"] whatever
    the bytes, and no encoder. *)
Definition fixed_image_codecs (img : ycbcr.Image) : Codecs :=
  {| image_Decode := λ _, Ok (img, "png");
     png_Encode := λ _, Err (ExternalError "no encoder");
     jpeg_Encode := λ _ _, Err (ExternalError "no encoder");
     strings_ToLower := λ s, s |}.

(** A mid-grey image of the given size. *)
Definition grey_image (w h : Z) : ycbcr.Image :=
  {| ycbcr.Dx := w; ycbcr.Dy := h;
     ycbcr.At := λ _ _, ycbcr.ColorYCbCr x80 x80 x80 |}.

(** A header with magic ["EMG0"] that declares 1000001 payload bytes, and
    its repetition-3 encoding. *)
Definition probe_header : list byte :=
  [x45; x4d; x47; x30; x01; x01; x00; x00; x00; x0f; x42; x41; x00; x00; x00; x00].

Definition probe_bits : list bool :=
  Eval vm_compute in
    match ecc.Repetition3_EncodeFrame probe_header with
    | Ok bits => bits
    | Err _ => []
    end.

(** * Properties *)

(** ** Loops *)

Lemma for_from_snoc {S : Type} (a n : nat) (body : nat → S → S) (s : S) :
  for_from a (Datatypes.S n) body s = body (a + n)%nat (for_from a n body s).
Proof.
  revert a s. induction n as [|n IH]; intros a s.
  - simpl. by rewrite Nat.add_0_r.
  - change (for_from a (Datatypes.S (Datatypes.S n)) body s)
      with (for_from (Datatypes.S a) (Datatypes.S n) body (body a s)).
    rewrite IH. simpl. by rewrite Nat.add_succ_r.
Qed.

Lemma for_loop_snoc {S : Type} (n : nat) (body : nat → S → S) (s : S) :
  for_loop (Datatypes.S n) body s = body n (for_loop n body s).
Proof. unfold for_loop. by rewrite for_from_snoc. Qed.

Lemma for_from_ext {S : Type} (a n : nat) (body body' : nat → S → S) (s : S) :
  (∀ i t, (a ≤ i < a + n)%nat → body i t = body' i t) →
  for_from a n body s = for_from a n body' s.
Proof.
  revert a s. induction n as [|n IH]; intros a s Hb; [done|].
  simpl. rewrite Hb by lia. apply IH. intros i t ?. apply Hb. lia.
Qed.

Lemma for_loop_ext {S : Type} (n : nat) (body body' : nat → S → S) (s : S) :
  (∀ i t, (i < n)%nat → body i t = body' i t) →
  for_loop n body s = for_loop n body' s.
Proof. intros Hb. apply for_from_ext. intros i t ?. apply Hb. lia. Qed.

(** A [range] loop is the counted loop over the indices. *)
Lemma for_range_from_for_from {A S : Type} (a : nat) (l : list A)
    (body : nat → A → S → S) (s : S) :
  for_range_from a l body s
  = for_from a (length l)
      (λ i s, match l !! (i - a)%nat with Some x => body i x s | None => s end) s.
Proof.
  revert a s. induction l as [|x l IH]; intros a s; [done|].
  simpl. rewrite Nat.sub_diag. simpl. rewrite IH.
  apply for_from_ext. intros i t ?.
  replace (i - a)%nat with (Datatypes.S (i - Datatypes.S a)) by lia. done.
Qed.

Lemma for_range_for_loop {A S : Type} (l : list A) (body : nat → A → S → S) (s : S) :
  for_range l body s
  = for_loop (length l)
      (λ i s, match l !! i with Some x => body i x s | None => s end) s.
Proof.
  unfold for_range, for_loop. rewrite for_range_from_for_from.
  apply for_from_ext. intros i t _. by rewrite Nat.sub_0_r.
Qed.

(** Two nested counted loops are one loop over the pairs in the order of
    the iteration. *)
Lemma for_loop_nested {S : Type} (n m : nat) (body : nat → nat → S → S) (s : S) :
  for_loop n (λ i s, for_loop m (λ j s, body i j s) s) s
  = for_loop (n * m) (λ t s, body (t / m)%nat (t `mod` m)%nat s) s.
Proof.
  destruct (decide (m = 0%nat)) as [->|Hm].
  { rewrite Nat.mul_0_r. induction n as [|n IH]; [done|].
    by rewrite for_loop_snoc, IH. }
  induction n as [|n IH]; [done|].
  rewrite for_loop_snoc, IH. clear IH.
  set (G := λ t s, body (t / m)%nat (t `mod` m)%nat s).
  assert (Hgen : ∀ k, (k ≤ m)%nat →
    for_loop (n * m + k) G s = for_loop k (λ j s, body n j s) (for_loop (n * m) G s)).
  { induction k as [|k IHk]; intros Hk.
    - by rewrite Nat.add_0_r.
    - rewrite Nat.add_succ_r, !for_loop_snoc, IHk by lia.
      unfold G at 1.
      replace ((n * m + k) / m)%nat with n.
      + replace ((n * m + k) `mod` m)%nat with k; [done|].
        rewrite Nat.add_comm, Nat.Div0.mod_add. symmetry. apply Nat.mod_small. lia.
      + rewrite Nat.add_comm, Nat.div_add by done.
        rewrite Nat.div_small by lia. done. }
  replace (Datatypes.S n * m)%nat with (n * m + m)%nat by lia.
  rewrite Hgen by lia. done.
Qed.

(** A loop of writes [a[f i] = g i] at pairwise different places. *)
Lemma for_loop_insert {A : Type} (n : nat) (f : nat → nat) (g : nat → A) (a : list A) :
  (∀ i i', (i < n)%nat → (i' < n)%nat → f i = f i' → i = i') →
  (∀ i, (i < n)%nat → (f i < length a)%nat) →
  let r := for_loop n (λ i a, <[f i := g i]> a) a in
  length r = length a
  ∧ (∀ i, (i < n)%nat → r !! f i = Some (g i))
  ∧ (∀ k, (∀ i, (i < n)%nat → f i ≠ k) → r !! k = a !! k).
Proof.
  intros Hinj Hlen. induction n as [|n IH]; simpl.
  { split; [done|]. split; [lia|done]. }
  rewrite for_loop_snoc.
  destruct IH as (IH1 & IH2 & IH3).
  { intros i i' ??. apply Hinj; lia. }
  { intros i ?. apply Hlen. lia. }
  split; [by rewrite length_insert|]. split.
  - intros i Hi. destruct (decide (i = n)) as [->|Hne].
    + apply list_lookup_insert_eq. rewrite IH1. apply Hlen. lia.
    + rewrite list_lookup_insert_ne.
      * apply IH2. lia.
      * intros Heq. apply Hne. symmetry. apply Hinj; [lia|lia|done].
  - intros k Hk. rewrite list_lookup_insert_ne by (apply Hk; lia).
    apply IH3. intros i ?. apply Hk. lia.
Qed.

(** ** Worked examples *)

Example BytesToBits_ex :
  bitstream.BytesToBits [x80; x01]
  = [true; false; false; false; false; false; false; false;
     false; false; false; false; false; false; false; true].
Proof. reflexivity. Qed.

Example BitsToBytes_ex :
  bitstream.BitsToBytes [true; false; true; false; false; false; false; true; true] = [xa1; x80].
Proof. reflexivity. Qed.

(** The check value of CRC-32/ISO-HDLC: the checksum of ["123456789"]. *)
Example ChecksumIEEE_check :
  crc32.ChecksumIEEE [x31; x32; x33; x34; x35; x36; x37; x38; x39] = 0xcbf43926.
Proof. vm_compute. reflexivity. Qed.

Example BuildFrame_hello :
  framing.BuildFrame [x68; x65; x6c; x6c; x6f] x01
  = Ok [x45; x4d; x47; x30; x01; x01; x00; x00; x00; x00; x00; x05;
        x36; x10; xa6; x86; x68; x65; x6c; x6c; x6f].
Proof. vm_compute. reflexivity. Qed.

Example ParseFrame_hello :
  (framing.BuildFrame [x68; x65; x6c; x6c; x6f] x01 ≫= framing.ParseFrame)
  = Ok ({| framing.HMagic := framing.Magic; framing.Version := x01;
           framing.ECCScheme := x01; framing.Reserved := (x00, x00);
           framing.PayloadLength := 5; framing.PayloadCRC32 := 0x3610a686 |},
        [x68; x65; x6c; x6c; x6f]).
Proof. vm_compute. reflexivity. Qed.

Example Repetition3_roundtrip_ex :
  (ecc.Repetition3_EncodeFrame [x12; x34] ≫= ecc.Repetition3_DecodeFrame) = Ok [x12; x34].
Proof. vm_compute. reflexivity. Qed.

Example cos_b64 :
  Binary64.cos (3 * 2 * Binary64.Pi / 16)%float = 0x1.87de2a6aea964p-2%float.
Proof. vm_compute. reflexivity. Qed.

(** ** Bytes *)

Lemma Z_of_byte_range (b : byte) : 0 ≤ Z_of_byte b < 256.
Proof.
  unfold Z_of_byte. pose proof (Byte.to_N_bounded b) as Hb. lia.
Qed.

Lemma byte_of_Z_of_byte (b : byte) : byte_of_Z (Z_of_byte b) = b.
Proof.
  unfold byte_of_Z. rewrite Z.mod_small by apply Z_of_byte_range.
  unfold Z_of_byte. rewrite N2Z.id, Byte.of_to_N. done.
Qed.

Lemma Z_of_byte_of_Z (z : Z) : Z_of_byte (byte_of_Z z) = z `mod` 256.
Proof.
  unfold byte_of_Z, Z_of_byte.
  pose proof (Z.mod_pos_bound z 256 ltac:(lia)) as Hz.
  destruct (Byte.of_N (Z.to_N (z `mod` 256))) as [b|] eqn:Hb.
  - apply Byte.to_of_N in Hb. rewrite Hb. lia.
  - apply Byte.of_N_None_iff in Hb. lia.
Qed.

Lemma Z_of_byte_inj (a b : byte) : Z_of_byte a = Z_of_byte b → a = b.
Proof. intros Hab. rewrite <- (byte_of_Z_of_byte a), Hab. apply byte_of_Z_of_byte. Qed.

(** Bytes with the same eight bits are equal. *)
Lemma byte_bits_ext (a b : byte) :
  (∀ k, 0 ≤ k < 8 → Z.testbit (Z_of_byte a) k = Z.testbit (Z_of_byte b) k) → a = b.
Proof.
  intros Hbits. apply Z_of_byte_inj. apply Z.bits_inj'. intros k Hk.
  destruct (decide (k < 8)) as [Hlt|Hge]; [apply Hbits; lia|].
  pose proof (Z_of_byte_range a). pose proof (Z_of_byte_range b).
  rewrite !(Z.bits_above_log2) ; try done; try lia.
  - destruct (decide (Z_of_byte b = 0)) as [->|]; [simpl; lia|].
    apply Z.log2_lt_pow2; [lia|]. apply Z.lt_le_trans with (2 ^ 8); [lia|].
    apply Z.pow_le_mono_r; lia.
  - destruct (decide (Z_of_byte a = 0)) as [->|]; [simpl; lia|].
    apply Z.log2_lt_pow2; [lia|]. apply Z.lt_le_trans with (2 ^ 8); [lia|].
    apply Z.pow_le_mono_r; lia.
Qed.

Lemma testbit_byte_of_Z (z k : Z) :
  0 ≤ k < 8 → Z.testbit (Z_of_byte (byte_of_Z z)) k = Z.testbit z k.
Proof.
  intros Hk. rewrite Z_of_byte_of_Z. change 256 with (2 ^ 8).
  apply Z.mod_pow2_bits_low. lia.
Qed.

(** The test [(b >> k) & 1 == 1] reads bit [k]. *)
Lemma shiftr_land_1_testbit (v k : Z) :
  0 ≤ k → (Z.land (Z.shiftr v k) 1 =? 1) = Z.testbit v k.
Proof.
  intros Hk. change 1 with (Z.ones 1) at 1. rewrite Z.land_ones by lia.
  change (2 ^ 1) with 2. rewrite <- Z.bit0_eqb, Z.shiftr_spec by lia.
  done.
Qed.

(** ** Package bitstream *)

(** The loop of [BytesToBits] writes position [t] with bit [7 - t mod 8]
    of byte [t / 8]. *)
Lemma BytesToBits_loop (data : list byte) (bits : list bool) :
  for_range data (λ i b bits,
    let offset := (i * 8)%nat in
    for_loop 8 (λ j bits,
      <[(offset + j)%nat :=
          Z.land (Z.shiftr (Z_of_byte b) (7 - Z.of_nat j)) 1 =? 1]> bits) bits) bits
  = for_loop (length data * 8) (λ t bits,
      <[t := Z.testbit (Z_of_byte (data !!! (t / 8)%nat)) (7 - Z.of_nat (t `mod` 8))]> bits) bits.
Proof.
  rewrite for_range_for_loop.
  rewrite (for_loop_ext _ _ (λ i s, for_loop 8 (λ j s,
     match data !! i with
     | Some b => <[(i * 8 + j)%nat :=
           Z.land (Z.shiftr (Z_of_byte b) (7 - Z.of_nat j)) 1 =? 1]> s
     | None => s
     end) s)).
  2:{ intros i t _. destruct (data !! i); done. }
  rewrite for_loop_nested. apply for_loop_ext. intros t s Ht.
  assert (t / 8 < length data)%nat as Hlt by (apply Nat.Div0.div_lt_upper_bound; lia).
  destruct (lookup_lt_is_Some_2 data _ Hlt) as [b Hb].
  rewrite Hb, (list_lookup_total_correct _ _ _ Hb).
  pose proof (Nat.div_mod_eq t 8). pose proof (Nat.mod_upper_bound t 8 ltac:(lia)).
  rewrite shiftr_land_1_testbit by lia.
  f_equal. lia.
Qed.

Lemma BytesToBits_length (data : list byte) :
  length (bitstream.BytesToBits data) = (length data * 8)%nat.
Proof.
  unfold bitstream.BytesToBits. case_decide as Hd; [by rewrite Hd|].
  rewrite BytesToBits_loop.
  destruct (for_loop_insert (length data * 8) (λ t, t)
    (λ t, Z.testbit (Z_of_byte (data !!! (t / 8)%nat)) (7 - Z.of_nat (t `mod` 8)))
    (replicate (length data * 8) false)) as (Hl & _); [done|..].
  - intros i ?. by rewrite length_replicate.
  - by rewrite Hl, length_replicate.
Qed.

Lemma BytesToBits_lookup (data : list byte) (i j : nat) (b : byte) :
  data !! i = Some b → (j < 8)%nat →
  bitstream.BytesToBits data !! (i * 8 + j)%nat
  = Some (Z.testbit (Z_of_byte b) (7 - Z.of_nat j)).
Proof.
  intros Hb Hj. pose proof (lookup_lt_Some _ _ _ Hb) as Hi.
  unfold bitstream.BytesToBits. case_decide as Hd; [lia|].
  rewrite BytesToBits_loop.
  destruct (for_loop_insert (length data * 8) (λ t, t)
    (λ t, Z.testbit (Z_of_byte (data !!! (t / 8)%nat)) (7 - Z.of_nat (t `mod` 8)))
    (replicate (length data * 8) false)) as (_ & Hr & _); [done|..].
  - intros t ?. by rewrite length_replicate.
  - rewrite Hr by lia.
    replace ((i * 8 + j) / 8)%nat with i.
    + replace ((i * 8 + j) `mod` 8)%nat with j.
      * by rewrite (list_lookup_total_correct _ _ _ Hb).
      * rewrite Nat.add_comm, Nat.Div0.mod_add. symmetry. by apply Nat.mod_small.
    + rewrite Nat.add_comm, Nat.div_add by done. by rewrite Nat.div_small.
Qed.

(** After [n] rounds the loop of [BitsToBytes] has packed the first [n]
    bits. *)
Lemma BitsToBytes_loop (bits : list bool) (m n : nat) :
  (n ≤ length bits)%nat → (length bits ≤ m * 8)%nat →
  let r := for_loop n (λ i bytes,
             match bits !! i with
             | Some bit =>
                 if bit : bool then
                   alter (λ b, byte_of_Z (Z.lor (Z_of_byte b)
                                   (Z.shiftl 1 (7 - Z.of_nat (i `mod` 8)))))
                     (i / 8)%nat bytes
                 else bytes
             | None => bytes
             end) (replicate m x00) in
  length r = m
  ∧ ∀ q j, (q < m)%nat → (j < 8)%nat →
      Z.testbit (Z_of_byte (r !!! q)) (7 - Z.of_nat j) = packed_bit bits n q j.
Proof.
  intros Hn Hm. cbv zeta. induction n as [|n IH].
  - unfold for_loop. simpl. split; [by rewrite length_replicate|]. intros q j Hq Hj.
    rewrite lookup_total_replicate_2 by done. unfold packed_bit.
    rewrite bool_decide_eq_false_2 by lia. simpl. apply Z.testbit_0_l.
  - rewrite for_loop_snoc. destruct IH as [IHl IHb]; [lia|].
    destruct (lookup_lt_is_Some_2 bits n ltac:(lia)) as [bit Hbit].
    rewrite Hbit.
    assert (Hstep : ∀ q j, (q < m)%nat → (j < 8)%nat →
      packed_bit bits (Datatypes.S n) q j
      = packed_bit bits n q j || (bool_decide (q * 8 + j = n)%nat && bit)).
    { intros q j Hq Hj. unfold packed_bit.
      destruct (decide (q * 8 + j = n)%nat) as [Heq|Hne].
      - rewrite Heq, Hbit. simpl.
        rewrite bool_decide_eq_true_2 by lia.
        rewrite bool_decide_eq_false_2 by lia.
        rewrite bool_decide_eq_true_2 by lia. done.
      - rewrite (bool_decide_eq_false_2 (q * 8 + j = n)%nat) by done.
        simpl. rewrite orb_false_r. f_equal.
        apply bool_decide_ext. lia. }
    destruct bit.
    + split; [by rewrite length_alter|]. intros q j Hq Hj.
      rewrite Hstep by done. rewrite andb_true_r.
      destruct (decide (q = n / 8)%nat) as [->|Hq'].
      * rewrite list_lookup_total_alter_eq by lia. cbv beta.
        rewrite testbit_byte_of_Z by lia.
        rewrite Z.lor_spec, IHb by done. f_equal.
        pose proof (Nat.div_mod_eq n 8). pose proof (Nat.mod_upper_bound n 8 ltac:(lia)).
        rewrite Z.shiftl_1_l, Z.pow2_bits_eqb by lia.
        destruct (decide (j = n `mod` 8)%nat) as [->|Hj'].
        -- rewrite Z.eqb_refl. symmetry. apply bool_decide_eq_true_2. lia.
        -- rewrite bool_decide_eq_false_2 by lia. apply Z.eqb_neq. lia.
      * rewrite list_lookup_total_alter_ne by done.
        rewrite IHb by done.
        rewrite bool_decide_eq_false_2; [by rewrite orb_false_r|].
        intros Heq. apply Hq'. subst n.
        rewrite Nat.add_comm, Nat.div_add by done. rewrite Nat.div_small by done. done.
    + split; [done|]. intros q j Hq Hj.
      rewrite Hstep by done. rewrite andb_false_r, orb_false_r. by apply IHb.
Qed.

Lemma BitsToBytes_length (bits : list bool) :
  length (bitstream.BitsToBytes bits) = ((length bits + 7) / 8)%nat.
Proof.
  unfold bitstream.BitsToBytes. case_decide as Hd; [by rewrite Hd|].
  rewrite for_range_for_loop.
  apply (BitsToBytes_loop bits ((length bits + 7) / 8) (length bits)); [done|].
  pose proof (Nat.div_mod_eq (length bits + 7) 8).
  pose proof (Nat.mod_upper_bound (length bits + 7) 8 ltac:(lia)). lia.
Qed.

(** Bit [7 - j] of byte [q] of the packing is the input bit at position
    [8q + j], or zero past the end of the input. *)
Lemma BitsToBytes_testbit (bits : list bool) (q j : nat) :
  (q < (length bits + 7) / 8)%nat → (j < 8)%nat →
  Z.testbit (Z_of_byte (bitstream.BitsToBytes bits !!! q)) (7 - Z.of_nat j)
  = default false (bits !! (q * 8 + j)%nat).
Proof.
  intros Hq Hj.
  unfold bitstream.BitsToBytes. case_decide as Hd.
  { rewrite Hd in Hq. simpl in Hq. lia. }
  rewrite for_range_for_loop.
  pose proof (Nat.div_mod_eq (length bits + 7) 8).
  pose proof (Nat.mod_upper_bound (length bits + 7) 8 ltac:(lia)).
  destruct (BitsToBytes_loop bits ((length bits + 7) / 8) (length bits)) as [_ Hb];
    [done|lia|].
  rewrite Hb by done. unfold packed_bit.
  destruct (decide (q * 8 + j < length bits)%nat) as [Hlt|Hge].
  - by rewrite bool_decide_eq_true_2.
  - rewrite bool_decide_eq_false_2 by done. simpl.
    by rewrite lookup_ge_None_2 by lia.
Qed.

Lemma BitsToBytes_BytesToBits (d : list byte) :
  bitstream.BitsToBytes (bitstream.BytesToBits d) = d.
Proof.
  apply list_eq_same_length with (length d); [done| |].
  { rewrite BitsToBytes_length, BytesToBits_length.
    rewrite Nat.add_comm, Nat.mul_comm.
    replace (7 + 8 * length d)%nat with (7 + length d * 8)%nat by lia.
    rewrite Nat.div_add by done. done. }
  intros q x y Hq Hx Hy.
  apply byte_bits_ext. intros k Hk.
  replace k with (7 - Z.of_nat (Z.to_nat (7 - k))) by lia.
  rewrite <- (list_lookup_total_correct _ _ _ Hx).
  rewrite BitsToBytes_testbit.
  - rewrite (BytesToBits_lookup d q _ y) by (done || lia). done.
  - rewrite BytesToBits_length. 
    replace (length d * 8 + 7)%nat with (7 + length d * 8)%nat by lia.
    rewrite Nat.div_add by done. simpl. done.
  - lia.
Qed.

(** ** Package ecc *)

Lemma for_range_from_append {A B : Type} (a : nat) (l : list A) (g : A → list B)
    (acc : list B) :
  for_range_from a l (λ _ x acc, acc ++ g x) acc = acc ++ (l ≫= g).
Proof.
  revert a acc. induction l as [|x l IH]; intros a acc; simpl.
  - by rewrite app_nil_r.
  - rewrite IH. by rewrite app_assoc.
Qed.

Lemma Repetition3_EncodeFrame_triples (frame : list byte) :
  ecc.Repetition3_EncodeFrame frame = Ok (triples (bitstream.BytesToBits frame)).
Proof.
  unfold ecc.Repetition3_EncodeFrame, for_range.
  by rewrite (for_range_from_append 0 _ (λ b, [b; b; b]) []).
Qed.

Lemma triples_length (l : list bool) : length (triples l) = (length l * 3)%nat.
Proof.
  unfold triples. induction l as [|b l IH]; [done|].
  rewrite bind_cons, length_app, IH. simpl. lia.
Qed.

Lemma triples_lookup (l : list bool) (i k : nat) :
  (k < 3)%nat → triples l !! (i * 3 + k)%nat = l !! i.
Proof.
  intros Hk. unfold triples. revert i. induction l as [|b l IH]; intros i.
  - done.
  - rewrite bind_cons. destruct i as [|i].
    + simpl. destruct k as [|[|[|k]]]; (done || lia).
    + replace (Datatypes.S i * 3 + k)%nat with (3 + (i * 3 + k))%nat by lia.
      rewrite lookup_app_r by (simpl; lia). simpl.
      replace (i * 3 + k - 0)%nat with (i * 3 + k)%nat by lia. apply IH.
Qed.

(** A triple with at most one bit flipped keeps its majority. *)
Lemma majority_one_flip (b : bool) (f1 f2 f3 : bool) :
  (f1 && f2 = false) → (f1 && f3 = false) → (f2 && f3 = false) →
  majority (xorb b f1) (xorb b f2) (xorb b f3) = b.
Proof. by destruct b, f1, f2, f3. Qed.

(** The loop of [Repetition3.DecodeFrame] writes the majority of triple
    [i] at position [i]. *)
Lemma DecodeFrame_loop (bits : list bool) (n : nat) :
  let r := for_loop n (λ i decodedBits,
            let offset := (i * 3)%nat in
            let b1 : bool := bits !!! offset in
            let b2 : bool := bits !!! (offset + 1)%nat in
            let b3 : bool := bits !!! (offset + 2)%nat in
            let ones := 0 in
            let ones := if b1 then ones + 1 else ones in
            let ones := if b2 then ones + 1 else ones in
            let ones := if b3 then ones + 1 else ones in
            if 2 <=? ones then <[i := true]> decodedBits
            else <[i := false]> decodedBits) (replicate n false) in
  length r = n
  ∧ ∀ i, (i < n)%nat →
      r !! i = Some (majority (bits !!! (i * 3)%nat) (bits !!! (i * 3 + 1)%nat)
                              (bits !!! (i * 3 + 2)%nat)).
Proof.
  cbv zeta.
  rewrite (for_loop_ext _ _ (λ i d,
    <[i := majority (bits !!! (i * 3)%nat) (bits !!! (i * 3 + 1)%nat)
                    (bits !!! (i * 3 + 2)%nat)]> d)).
  2:{ intros i d _. unfold majority. cbv zeta.
      by destruct (2 <=? _). }
  destruct (for_loop_insert n (λ i, i)
    (λ i, majority (bits !!! (i * 3)%nat) (bits !!! (i * 3 + 1)%nat)
                   (bits !!! (i * 3 + 2)%nat)) (replicate n false))
    as (Hl & Hr & _); [done|..].
  - intros i ?. by rewrite length_replicate.
  - split; [by rewrite Hl, length_replicate|]. intros i Hi. by apply Hr.
Qed.

(** Decoding the encoding of [l] with the bits at the positions in
    [flips] inverted, when no triple holds two of them. *)
Lemma DecodeFrame_triples (l : list bool) (bits : list bool) :
  l ≠ [] →
  length bits = (length l * 3)%nat →
  (∀ i b, l !! i = Some b →
     majority (bits !!! (i * 3)%nat) (bits !!! (i * 3 + 1)%nat)
              (bits !!! (i * 3 + 2)%nat) = b) →
  ecc.Repetition3_DecodeFrame bits = Ok (bitstream.BitsToBytes l).
Proof.
  intros Hne Hlen Hmaj.
  assert (0 < length l)%nat by (destruct l; [done|simpl; lia]).
  unfold ecc.Repetition3_DecodeFrame.
  rewrite Hlen. replace (length l * 3 / 3)%nat with (length l)
    by (symmetry; apply Nat.div_mul; lia).
  case_decide; [lia|]. case_decide; [lia|].
  f_equal. f_equal.
  destruct (DecodeFrame_loop bits (length l)) as [Hl Hr].
  apply list_eq_same_length with (length l); [done|done|].
  intros i x y Hi Hx Hy. rewrite Hr in Hx by done.
  injection Hx as <-. by apply Hmaj.
Qed.

Lemma Repetition3_round_trip (f : list byte) :
  f ≠ [] →
  ecc.Repetition3_DecodeFrame (triples (bitstream.BytesToBits f)) = Ok f.
Proof.
  intros Hf.
  rewrite (DecodeFrame_triples (bitstream.BytesToBits f)).
  - by rewrite BitsToBytes_BytesToBits.
  - intros Hnil. apply (f_equal length) in Hnil.
    rewrite BytesToBits_length in Hnil. destruct f; [done|simpl in Hnil; lia].
  - apply triples_length.
  - intros i b Hb.
    assert (Hget : ∀ k, (k < 3)%nat →
      triples (bitstream.BytesToBits f) !!! (i * 3 + k)%nat = b).
    { intros k Hk. apply list_lookup_total_correct. by rewrite triples_lookup. }
    replace (i * 3)%nat with (i * 3 + 0)%nat at 1 by lia.
    rewrite !Hget by lia. by destruct b.
Qed.

Lemma Repetition3_single_flip (f : list byte) (p : nat) :
  f ≠ [] →
  ecc.Repetition3_DecodeFrame (alter negb p (triples (bitstream.BytesToBits f))) = Ok f.
Proof.
  intros Hf.
  rewrite (DecodeFrame_triples (bitstream.BytesToBits f)).
  - by rewrite BitsToBytes_BytesToBits.
  - intros Hnil. apply (f_equal length) in Hnil.
    rewrite BytesToBits_length in Hnil. destruct f; [done|simpl in Hnil; lia].
  - by rewrite length_alter, triples_length.
  - intros i b Hb.
    assert (Hget : ∀ k, (k < 3)%nat →
      alter negb p (triples (bitstream.BytesToBits f)) !!! (i * 3 + k)%nat
      = xorb b (bool_decide (p = i * 3 + k)%nat)).
    { intros k Hk. apply list_lookup_total_correct.
      destruct (decide (p = i * 3 + k)%nat) as [->|Hp].
      - rewrite list_lookup_alter_eq, triples_lookup, Hb by done.
        rewrite bool_decide_eq_true_2 by done. by destruct b.
      - rewrite list_lookup_alter_ne, triples_lookup, Hb by done.
        rewrite bool_decide_eq_false_2 by done. by destruct b. }
    replace (i * 3)%nat with (i * 3 + 0)%nat at 1 by lia.
    rewrite !Hget by lia. apply majority_one_flip.
    + destruct (decide (p = i * 3 + 0)%nat); [|by rewrite bool_decide_eq_false_2].
      rewrite (bool_decide_eq_false_2 (p = i * 3 + 1)%nat) by lia. apply andb_false_r.
    + destruct (decide (p = i * 3 + 0)%nat); [|by rewrite bool_decide_eq_false_2].
      rewrite (bool_decide_eq_false_2 (p = i * 3 + 2)%nat) by lia. apply andb_false_r.
    + destruct (decide (p = i * 3 + 1)%nat); [|by rewrite bool_decide_eq_false_2].
      rewrite (bool_decide_eq_false_2 (p = i * 3 + 2)%nat) by lia. apply andb_false_r.
Qed.

(** ** Integers *)

Lemma int_wrap_mod (z : Z) : int_wrap z = (z + 2 ^ 63) `mod` 2 ^ 64 - 2 ^ 63.
Proof.
  unfold int_wrap. change 0xffffffffffffffff with (Z.ones 64).
  by rewrite Z.land_ones.
Qed.

Lemma int_wrap_small (z : Z) : - 2 ^ 63 ≤ z < 2 ^ 63 → int_wrap z = z.
Proof. intros Hz. rewrite int_wrap_mod, Z.mod_small; lia. Qed.

Lemma lxor_range (n a b : Z) :
  0 ≤ n → 0 ≤ a < 2 ^ n → 0 ≤ b < 2 ^ n → 0 ≤ Z.lxor a b < 2 ^ n.
Proof.
  intros Hn Ha Hb.
  assert (0 ≤ Z.lxor a b) as Hnn by (apply Z.lxor_nonneg; lia).
  split; [done|].
  destruct (decide (Z.lxor a b = 0)) as [->|Hx]; [lia|].
  assert (0 < n).
  { destruct (decide (n = 0)) as [->|]; [|lia].
    assert (a = 0) as -> by lia. assert (b = 0) as -> by lia. done. }
  apply Z.log2_lt_pow2; [lia|].
  pose proof (Z.log2_lxor a b ltac:(lia) ltac:(lia)) as Hl.
  assert (Z.log2 a < n) by
    (destruct (decide (a = 0)) as [->|]; [simpl; lia|apply Z.log2_lt_pow2; lia]).
  assert (Z.log2 b < n) by
    (destruct (decide (b = 0)) as [->|]; [simpl; lia|apply Z.log2_lt_pow2; lia]).
  lia.
Qed.

Lemma shiftr_range (n a k : Z) : 0 ≤ k → 0 ≤ a < 2 ^ n → 0 ≤ Z.shiftr a k < 2 ^ n.
Proof.
  intros Hk Ha. rewrite Z.shiftr_div_pow2 by done.
  assert (0 < 2 ^ k) by (apply Z.pow_pos_nonneg; lia).
  split; [apply Z.div_pos; lia|].
  apply Z.le_lt_trans with a; [|lia]. apply Z.div_le_upper_bound; nia.
Qed.

(** ** The checksum is a [uint32] *)

Lemma IEEETable_range (k : nat) : 0 ≤ crc32.IEEETable !!! k < 2 ^ 32.
Proof.
  assert (Forall (λ x, 0 ≤ x < 2 ^ 32) crc32.IEEETable) as Hall.
  { apply (bool_decide_unpack (Forall (λ x, 0 ≤ x < 2 ^ 32) crc32.IEEETable)).
    vm_compute. done. }
  destruct (crc32.IEEETable !! k) as [x|] eqn:Hk.
  - rewrite (list_lookup_total_correct _ _ _ Hk).
    by apply (Forall_lookup_1 _ _ _ _ Hall Hk).
  - rewrite list_lookup_total_alt, Hk. simpl. lia.
Qed.

Lemma ChecksumIEEE_range (data : list byte) : 0 ≤ crc32.ChecksumIEEE data < 2 ^ 32.
Proof.
  unfold crc32.ChecksumIEEE, crc32.update.
  apply lxor_range; [lia| |lia].
  unfold for_range.
  assert (Hgen : ∀ a crc, 0 ≤ crc < 2 ^ 32 →
    0 ≤ for_range_from a data (λ _ v crc,
          Z.lxor (crc32.IEEETable !!! Z.to_nat (Z.lxor (crc `mod` 256) (Z_of_byte v)))
                 (Z.shiftr crc 8)) crc < 2 ^ 32).
  { induction data as [|v data IH]; intros a crc Hcrc; [done|].
    simpl. apply IH. apply lxor_range; [lia|apply IEEETable_range|].
    apply shiftr_range; lia. }
  apply Hgen. apply lxor_range; lia.
Qed.

(** ** Big-endian words *)

Lemma lor_shiftl_add (lo hi k : Z) :
  0 ≤ k → 0 ≤ lo < 2 ^ k → Z.lor lo (Z.shiftl hi k) = lo + hi * 2 ^ k.
Proof.
  intros Hk Hlo. rewrite Z.shiftl_mul_pow2 by done.
  symmetry. apply Z.add_nocarry_lor.
  apply Z.bits_inj'. intros n Hn. rewrite Z.land_spec, Z.bits_0.
  destruct (decide (n < k)) as [Hlt|Hge].
  - rewrite Z.mul_pow2_bits_low by lia. apply andb_false_r.
  - destruct (decide (lo = 0)) as [->|Hne]; [by rewrite Z.bits_0|].
    rewrite (Z.bits_above_log2 lo n); [done|lia|].
    apply Z.lt_le_trans with k; [|lia]. apply Z.log2_lt_pow2; lia.
Qed.

Lemma Uint32_value (b : list byte) (lo : nat) :
  framing.Uint32 b lo
  = be32_value (b !!! lo) (b !!! (lo + 1)%nat) (b !!! (lo + 2)%nat) (b !!! (lo + 3)%nat).
Proof.
  unfold framing.Uint32, be32_value.
  pose proof (Z_of_byte_range (b !!! lo)).
  pose proof (Z_of_byte_range (b !!! (lo + 1)%nat)).
  pose proof (Z_of_byte_range (b !!! (lo + 2)%nat)).
  pose proof (Z_of_byte_range (b !!! (lo + 3)%nat)).
  rewrite (lor_shiftl_add (Z_of_byte (b !!! (lo + 3)%nat))) by lia.
  rewrite (lor_shiftl_add (_ + _ * 2 ^ 8)) by lia.
  rewrite (lor_shiftl_add (_ + _ * 2 ^ 16)) by lia.
  lia.
Qed.

Lemma be32_value_range (b0 b1 b2 b3 : byte) : 0 ≤ be32_value b0 b1 b2 b3 < 2 ^ 32.
Proof.
  unfold be32_value.
  pose proof (Z_of_byte_range b0). pose proof (Z_of_byte_range b1).
  pose proof (Z_of_byte_range b2). pose proof (Z_of_byte_range b3). lia.
Qed.

(** The four bytes [PutUint32] writes, read back. *)
Lemma be32_value_bytes (v : Z) :
  0 ≤ v < 2 ^ 32 →
  be32_value (byte_of_Z (Z.shiftr v 24)) (byte_of_Z (Z.shiftr v 16))
             (byte_of_Z (Z.shiftr v 8)) (byte_of_Z v) = v.
Proof.
  intros Hv. unfold be32_value. rewrite !Z_of_byte_of_Z.
  rewrite !Z.shiftr_div_pow2 by lia.
  change (2 ^ 24) with 16777216. change (2 ^ 16) with 65536. change (2 ^ 8) with 256.
  change (2 ^ 32) with 4294967296 in Hv.
  Z.div_mod_to_equations. lia.
Qed.

(** ** Package framing *)

Lemma declared_length_range (f : list byte) : 0 ≤ declared_length f < 2 ^ 32.
Proof. apply be32_value_range. Qed.

Lemma ParseFrame_outcome (f : list byte) : ParseOutcome f (framing.ParseFrame f).
Proof.
  unfold framing.ParseFrame. cbv zeta.
  change (slice f 0 4) with (take 4 f).
  change (Z.of_nat framing.HeaderSize) with 16.
  unfold framing.PayloadLength, framing.PayloadCRC32.
  rewrite !Uint32_value.
  change (be32_value (f !!! 8%nat) _ _ _) with (declared_length f).
  change (be32_value (f !!! 12%nat) _ _ _) with (stored_crc f).
  pose proof (declared_length_range f) as Hr.
  rewrite int_wrap_small by lia.
  assert (slice f framing.HeaderSize (Z.to_nat (16 + declared_length f)) = payload_of f) as ->.
  { unfold slice, payload_of. f_equal. change framing.HeaderSize with 16%nat. lia. }
  case_decide as H1; [by constructor|].
  case_decide as H2; [constructor; (done || unfold framing.HeaderSize in H1; lia)|].
  case_decide as H3; [constructor; (done || unfold framing.HeaderSize in H1; lia)|].
  case_decide as H4; [constructor; (done || unfold framing.HeaderSize in H1; lia)|].
  replace {| framing.HMagic := take 4 f; framing.Version := f !!! 4%nat;
             framing.ECCScheme := f !!! 5%nat;
             framing.Reserved := (f !!! 6%nat, f !!! 7%nat);
             framing.PayloadLength := declared_length f;
             framing.PayloadCRC32 := stored_crc f |} with (header_of f) by done.
  constructor; (done || unfold framing.HeaderSize in H1; lia).
Qed.

(** [copy] into a window of the size of the source replaces the window. *)
Lemma copy_at_window {A : Type} (pre mid suf src : list A) :
  length mid = length src →
  copy_at (pre ++ mid ++ suf) (length pre) src = pre ++ src ++ suf.
Proof.
  intros Hm. unfold copy_at.
  rewrite !length_app.
  replace (length src `min` (length pre + (length mid + length suf) - length pre))%nat
    with (length src) by lia.
  rewrite take_app_length, firstn_all.
  rewrite drop_app_add', drop_app_length'; done.
Qed.

Lemma BuildFrame_bytes (message : list byte) (eccScheme : byte) :
  framing.BuildFrame message eccScheme = Ok (frame_bytes message eccScheme).
Proof.
  unfold framing.BuildFrame, frame_bytes. cbv zeta.
  generalize (crc32.ChecksumIEEE message) as crc.
  generalize (uint32 (Z.of_nat (length message))) as len.
  intros len crc. f_equal.
  set (header := framing.PutUint32 _ 12 crc).
  assert (header =
    [x45; x4d; x47; x30; framing.CurrentVersion; eccScheme; x00; x00;
     byte_of_Z (Z.shiftr len 24); byte_of_Z (Z.shiftr len 16);
     byte_of_Z (Z.shiftr len 8); byte_of_Z len;
     byte_of_Z (Z.shiftr crc 24); byte_of_Z (Z.shiftr crc 16);
     byte_of_Z (Z.shiftr crc 8); byte_of_Z crc]) as -> by reflexivity.
  set (hdr := [_; _; _; _; _; _; _; _; _; _; _; _; _; _; _; _]).
  change framing.HeaderSize with (length hdr).
  rewrite replicate_add.
  change (copy_at ?l 0 hdr) with (copy_at ([] ++ l) (length (@nil byte)) hdr).
  rewrite (copy_at_window [] (replicate (length hdr) x00) _ hdr)
    by (by rewrite length_replicate).
  rewrite app_nil_l.
  rewrite <- (app_nil_r (replicate (length message) x00)).
  rewrite (copy_at_window hdr (replicate (length message) x00) [] message)
    by (by rewrite length_replicate).
  by rewrite app_nil_r.
Qed.

Lemma ParseOutcome_det (f : list byte) (r1 r2 : Result (framing.Header * list byte)) :
  ParseOutcome f r1 → ParseOutcome f r2 → r1 = r2.
Proof. destruct 1; destruct 1; (done || lia). Qed.

Lemma ParseFrame_unique (f : list byte) (r : Result (framing.Header * list byte)) :
  ParseOutcome f r → framing.ParseFrame f = r.
Proof. intros Hr. exact (ParseOutcome_det f _ _ (ParseFrame_outcome f) Hr). Qed.

Section frame_facts.
Variables (p : list byte) (s : byte).
Hypothesis Hlen : Z.of_nat (length p) < 2 ^ 32.

Lemma frame_bytes_length : length (frame_bytes p s) = (16 + length p)%nat.
Proof. done. Qed.

Lemma frame_bytes_declared_length : declared_length (frame_bytes p s) = Z.of_nat (length p).
Proof.
  unfold declared_length, frame_bytes. cbv zeta.
  change (be32_value _ _ _ _) with
    (be32_value (byte_of_Z (Z.shiftr (uint32 (Z.of_nat (length p))) 24))
                (byte_of_Z (Z.shiftr (uint32 (Z.of_nat (length p))) 16))
                (byte_of_Z (Z.shiftr (uint32 (Z.of_nat (length p))) 8))
                (byte_of_Z (uint32 (Z.of_nat (length p))))).
  unfold uint32. rewrite Z.mod_small by lia. apply be32_value_bytes. lia.
Qed.

Lemma frame_bytes_stored_crc : stored_crc (frame_bytes p s) = crc32.ChecksumIEEE p.
Proof.
  unfold stored_crc, frame_bytes. cbv zeta.
  change (be32_value _ _ _ _) with
    (be32_value (byte_of_Z (Z.shiftr (crc32.ChecksumIEEE p) 24))
                (byte_of_Z (Z.shiftr (crc32.ChecksumIEEE p) 16))
                (byte_of_Z (Z.shiftr (crc32.ChecksumIEEE p) 8))
                (byte_of_Z (crc32.ChecksumIEEE p))).
  apply be32_value_bytes, ChecksumIEEE_range.
Qed.

Lemma frame_bytes_payload : payload_of (frame_bytes p s) = p.
Proof.
  unfold payload_of. rewrite frame_bytes_declared_length, Nat2Z.id.
  change (drop 16 (frame_bytes p s)) with p. apply firstn_all.
Qed.

Lemma ParseFrame_frame_bytes :
  framing.ParseFrame (frame_bytes p s)
  = Ok ({| framing.HMagic := framing.Magic;
           framing.Version := framing.CurrentVersion;
           framing.ECCScheme := s;
           framing.Reserved := (x00, x00);
           framing.PayloadLength := Z.of_nat (length p);
           framing.PayloadCRC32 := crc32.ChecksumIEEE p |}, p).
Proof.
  apply ParseFrame_unique.
  assert (Ok ({| framing.HMagic := framing.Magic;
                 framing.Version := framing.CurrentVersion;
                 framing.ECCScheme := s; framing.Reserved := (x00, x00);
                 framing.PayloadLength := Z.of_nat (length p);
                 framing.PayloadCRC32 := crc32.ChecksumIEEE p |}, p)
          = Ok (header_of (frame_bytes p s), payload_of (frame_bytes p s))) as ->.
  { rewrite frame_bytes_payload. unfold header_of.
    by rewrite frame_bytes_declared_length, frame_bytes_stored_crc. }
  constructor.
  - rewrite frame_bytes_length. lia.
  - done.
  - rewrite frame_bytes_declared_length, frame_bytes_length. lia.
  - by rewrite frame_bytes_payload, frame_bytes_stored_crc.
Qed.
End frame_facts.

Section version_reserved.
Variables (f : list byte) (v r1 r2 : byte).
Let f' := with_version_reserved f v r1 r2.

Lemma with_version_reserved_length : length f' = length f.
Proof. unfold f', with_version_reserved. by rewrite !length_insert. Qed.

Lemma with_version_reserved_lookup (i : nat) :
  i ≠ 4%nat → i ≠ 6%nat → i ≠ 7%nat → f' !!! i = f !!! i.
Proof.
  intros. unfold f', with_version_reserved.
  by rewrite !list_lookup_total_insert_ne.
Qed.

Lemma with_version_reserved_take : take 4 f' = take 4 f.
Proof. unfold f', with_version_reserved. by rewrite !take_insert_ge by lia. Qed.

Lemma with_version_reserved_drop : drop 16 f' = drop 16 f.
Proof. unfold f', with_version_reserved. by rewrite !drop_insert_lt by lia. Qed.

Lemma with_version_reserved_declared : declared_length f' = declared_length f.
Proof. unfold declared_length. by rewrite !with_version_reserved_lookup. Qed.

Lemma with_version_reserved_crc : stored_crc f' = stored_crc f.
Proof. unfold stored_crc. by rewrite !with_version_reserved_lookup. Qed.

Lemma with_version_reserved_payload : payload_of f' = payload_of f.
Proof.
  unfold payload_of.
  by rewrite with_version_reserved_declared, with_version_reserved_drop.
Qed.

Lemma with_version_reserved_header :
  (16 ≤ length f)%nat →
  header_of f'
  = {| framing.HMagic := framing.HMagic (header_of f);
       framing.Version := v;
       framing.ECCScheme := framing.ECCScheme (header_of f);
       framing.Reserved := (r1, r2);
       framing.PayloadLength := framing.PayloadLength (header_of f);
       framing.PayloadCRC32 := framing.PayloadCRC32 (header_of f) |}.
Proof.
  intros Hl. unfold header_of. simpl.
  rewrite with_version_reserved_take, with_version_reserved_declared,
    with_version_reserved_crc.
  rewrite (with_version_reserved_lookup 5) by done.
  unfold f', with_version_reserved.
  rewrite list_lookup_total_insert_eq by (rewrite !length_insert; lia).
  rewrite (list_lookup_total_insert_ne _ 4 6) by done.
  rewrite list_lookup_total_insert_eq by (rewrite !length_insert; lia).
  rewrite (list_lookup_total_insert_ne _ 4 7) by done.
  rewrite (list_lookup_total_insert_ne _ 6 7) by done.
  rewrite list_lookup_total_insert_eq by lia.
  done.
Qed.
End version_reserved.

(** ** The claims on the bit packer, the repetition code and the frame *)

(** C6 (bit-pack round trip).  For every byte sequence [d], packing the
    bits of [d] gives [d] back.  [BytesToBits] yields eight booleans per
    byte, the most significant bit first; [BitsToBytes] fills
    [(n + 7) / 8] bytes, the most significant bit first, and the bits
    past the end of its input are zero. *)
Theorem bitpack_round_trip :
  ∀ d : list byte,
    bitstream.BitsToBytes (bitstream.BytesToBits d) = d
    ∧ length (bitstream.BytesToBits d) = (length d * 8)%nat
    ∧ (∀ (i j : nat) (b : byte), d !! i = Some b → (j < 8)%nat →
         bitstream.BytesToBits d !! (i * 8 + j)%nat
         = Some (Z.testbit (Z_of_byte b) (7 - Z.of_nat j)))
    ∧ (∀ bits : list bool,
         length (bitstream.BitsToBytes bits) = ((length bits + 7) / 8)%nat
         ∧ ∀ q j : nat, (q < (length bits + 7) / 8)%nat → (j < 8)%nat →
             Z.testbit (Z_of_byte (bitstream.BitsToBytes bits !!! q)) (7 - Z.of_nat j)
             = default false (bits !! (q * 8 + j)%nat)).
Proof.
  intros d. split; [apply BitsToBytes_BytesToBits|].
  split; [apply BytesToBits_length|].
  split; [intros i j b; apply BytesToBits_lookup|].
  intros bits. split; [apply BitsToBytes_length|].
  intros q j. apply BitsToBytes_testbit.
Qed.

(** C5, as the claim states it, fails on the empty sequence: its encoding
    has no bits, and [DecodeFrame] refuses an input without bits. *)
Lemma repetition3_empty_frame :
  (ecc.Repetition3_EncodeFrame [] ≫= ecc.Repetition3_DecodeFrame) = Err ErrInsufficientBits
  ∧ (ecc.Repetition3_EncodeFrame [] ≫= ecc.Repetition3_DecodeFrame) ≠ Ok [].
Proof. split; [reflexivity|discriminate]. Qed.

(** C5 (repetition-3, amended).  For every frame [f] that is not empty,
    decoding the encoding of [f] gives [f]; the encoding has
    [24 * len(f)] bits, and with the bit at any one position [i] below
    that inverted it still decodes to [f]. *)
Theorem repetition3_single_error_correction (f : list byte) :
  f ≠ [] →
  (ecc.Repetition3_EncodeFrame f ≫= ecc.Repetition3_DecodeFrame) = Ok f
  ∧ ∃ bits : list bool,
      ecc.Repetition3_EncodeFrame f = Ok bits
      ∧ length bits = (24 * length f)%nat
      ∧ ∀ i : nat, (i < 24 * length f)%nat →
          alter negb i bits !! i = negb <$> bits !! i
          ∧ ecc.Repetition3_DecodeFrame (alter negb i bits) = Ok f.
Proof.
  intros Hf. rewrite Repetition3_EncodeFrame_triples. split.
  - by apply Repetition3_round_trip.
  - eexists. split; [done|]. split.
    + rewrite triples_length, BytesToBits_length. lia.
    + intros i Hi. split; [apply list_lookup_alter_eq|].
      by apply Repetition3_single_flip.
Qed.

Lemma repetition3_single_error_correction_witness :
  [x80] ≠ []
  ∧ (ecc.Repetition3_EncodeFrame [x80] ≫= ecc.Repetition3_DecodeFrame) = Ok [x80]
  ∧ ∃ bits : list bool,
      ecc.Repetition3_EncodeFrame [x80] = Ok bits
      ∧ length bits = (24 * length [x80])%nat
      ∧ ∀ i : nat, (i < 24 * length [x80])%nat →
          alter negb i bits !! i = negb <$> bits !! i
          ∧ ecc.Repetition3_DecodeFrame (alter negb i bits) = Ok [x80].
Proof.
  split; [discriminate|].
  apply (repetition3_single_error_correction [x80]). discriminate.
Defined.

(** C2 (frame round trip).  For every payload [p] shorter than [2^32]
    bytes and every scheme id [s], [BuildFrame] succeeds and [ParseFrame]
    on its result returns the header with magic ["EMG0"], version
    [CurrentVersion] (0x01), scheme [s], both reserved bytes zero, the
    length of [p] and the CRC-32 of [p], together with [p] itself. *)
Theorem frame_round_trip (p : list byte) (s : byte) :
  Z.of_nat (length p) < 2 ^ 32 →
  (framing.BuildFrame p s ≫= framing.ParseFrame)
  = Ok ({| framing.HMagic := framing.Magic;
           framing.Version := framing.CurrentVersion;
           framing.ECCScheme := s;
           framing.Reserved := (x00, x00);
           framing.PayloadLength := Z.of_nat (length p);
           framing.PayloadCRC32 := crc32.ChecksumIEEE p |}, p)
  ∧ framing.Magic = String.list_byte_of_string "EMG0"
  ∧ framing.CurrentVersion = x01.
Proof.
  intros Hp. split; [|done].
  rewrite BuildFrame_bytes. by apply ParseFrame_frame_bytes.
Qed.

Lemma frame_round_trip_witness :
  Z.of_nat (length [x68; x65; x6c; x6c; x6f]) < 2 ^ 32
  ∧ (framing.BuildFrame [x68; x65; x6c; x6c; x6f] x01 ≫= framing.ParseFrame)
    = Ok ({| framing.HMagic := framing.Magic;
             framing.Version := framing.CurrentVersion;
             framing.ECCScheme := x01;
             framing.Reserved := (x00, x00);
             framing.PayloadLength := Z.of_nat (length [x68; x65; x6c; x6c; x6f]);
             framing.PayloadCRC32 := crc32.ChecksumIEEE [x68; x65; x6c; x6c; x6f] |},
          [x68; x65; x6c; x6c; x6f])
  ∧ framing.Magic = String.list_byte_of_string "EMG0"
  ∧ framing.CurrentVersion = x01.
Proof.
  split; [done|].
  apply (frame_round_trip [x68; x65; x6c; x6c; x6f] x01). done.
Defined.

(** C3 (failure conditions of [ParseFrame], in their order).  For every
    byte sequence [f]: fewer than 16 bytes give [ErrFrameTooShort];
    otherwise first four bytes other than ["EMG0"] give [ErrInvalidMagic];
    otherwise a declared length (bytes 8 to 11, big-endian) with
    [16 + length] beyond [len(f)] gives [ErrInvalidLength]; otherwise a
    CRC-32 of [f[16 : 16+length]] other than the stored one (bytes 12 to
    15) gives [ErrCRCMismatch]; otherwise parsing succeeds.  An error of
    [ParseFrame] is one of these four, under its condition. *)
Theorem ParseFrame_failure_conditions :
  ∀ f : list byte,
    ParseOutcome f (framing.ParseFrame f)
    ∧ ∀ e : error, framing.ParseFrame f = Err e →
        (e = ErrFrameTooShort ∧ (length f < 16)%nat)
        ∨ (e = ErrInvalidMagic ∧ (16 ≤ length f)%nat ∧ take 4 f ≠ framing.Magic)
        ∨ (e = ErrInvalidLength ∧ (16 ≤ length f)%nat ∧ take 4 f = framing.Magic
           ∧ Z.of_nat (length f) < 16 + declared_length f)
        ∨ (e = ErrFrameCRCMismatch ∧ (16 ≤ length f)%nat ∧ take 4 f = framing.Magic
           ∧ 16 + declared_length f ≤ Z.of_nat (length f)
           ∧ crc32.ChecksumIEEE (payload_of f) ≠ stored_crc f).
Proof.
  intros f. split; [apply ParseFrame_outcome|].
  intros e He. pose proof (ParseFrame_outcome f) as Ho. rewrite He in Ho.
  inversion Ho; subst; auto 10.
Qed.

(** C9 (version and reserved bytes are not validated).  For every frame
    [f] and bytes [v], [r1], [r2]: the frame with byte 4 set to [v] and
    bytes 6 and 7 set to [r1] and [r2] parses as [f] does, with the same
    error when [f] fails, and with the same payload and a header that
    differs only in echoing [v] and [(r1, r2)] when [f] parses. *)
Theorem ParseFrame_ignores_version_and_reserved :
  ∀ (f : list byte) (v r1 r2 : byte),
    framing.ParseFrame (with_version_reserved f v r1 r2)
    = match framing.ParseFrame f with
      | Ok (h, payload) =>
          Ok ({| framing.HMagic := framing.HMagic h;
                 framing.Version := v;
                 framing.ECCScheme := framing.ECCScheme h;
                 framing.Reserved := (r1, r2);
                 framing.PayloadLength := framing.PayloadLength h;
                 framing.PayloadCRC32 := framing.PayloadCRC32 h |}, payload)
      | Err e => Err e
      end.
Proof.
  intros f v r1 r2. apply ParseFrame_unique.
  destruct (ParseFrame_outcome f) as [H1|H1 H2|H1 H2 H3|H1 H2 H3 H4|H1 H2 H3 H4].
  - apply parse_too_short. by rewrite with_version_reserved_length.
  - apply parse_invalid_magic.
    + by rewrite with_version_reserved_length.
    + by rewrite with_version_reserved_take.
  - apply parse_invalid_length.
    + by rewrite with_version_reserved_length.
    + by rewrite with_version_reserved_take.
    + by rewrite with_version_reserved_length, with_version_reserved_declared.
  - apply parse_crc_mismatch.
    + by rewrite with_version_reserved_length.
    + by rewrite with_version_reserved_take.
    + by rewrite with_version_reserved_length, with_version_reserved_declared.
    + by rewrite with_version_reserved_payload, with_version_reserved_crc.
  - rewrite <- (with_version_reserved_payload f v r1 r2).
    rewrite <- (with_version_reserved_header f v r1 r2) by done.
    apply parse_ok.
    + by rewrite with_version_reserved_length.
    + by rewrite with_version_reserved_take.
    + by rewrite with_version_reserved_length, with_version_reserved_declared.
    + by rewrite with_version_reserved_payload, with_version_reserved_crc.
Qed.

(** ** The coefficient rule, over the reals and in binary64 *)

Section coefficient_rule_real.
Import RealArith.
Local Open Scope R_scope.

Variables (config : DCTConfig R) (bit : bool) (dctBlock : list R).
Hypothesis Hlen : length dctBlock = 64%nat.

Lemma embedCoefficients_22 :
  embedCoefficients config bit dctBlock !!! 18%nat
  = let midpoint := (dctBlock !!! 18%nat + dctBlock !!! 19%nat) / 2 in
    let gap := MinGap config + Delta config in
    if bit then midpoint + gap / 2 else midpoint - gap / 2.
Proof.
  unfold embedCoefficients. cbv zeta. destruct bit.
  - rewrite list_lookup_total_insert_ne by done.
    rewrite list_lookup_total_insert_eq by lia. done.
  - rewrite list_lookup_total_insert_ne by done.
    rewrite list_lookup_total_insert_eq by lia. done.
Qed.

Lemma embedCoefficients_23 :
  embedCoefficients config bit dctBlock !!! 19%nat
  = let midpoint := (dctBlock !!! 18%nat + dctBlock !!! 19%nat) / 2 in
    let gap := MinGap config + Delta config in
    if bit then midpoint - gap / 2 else midpoint + gap / 2.
Proof.
  unfold embedCoefficients. cbv zeta. destruct bit.
  - rewrite list_lookup_total_insert_eq by (rewrite length_insert; lia). done.
  - rewrite list_lookup_total_insert_eq by (rewrite length_insert; lia). done.
Qed.

Lemma embedCoefficients_other (k : nat) :
  k ≠ 18%nat → k ≠ 19%nat →
  embedCoefficients config bit dctBlock !!! k = dctBlock !!! k.
Proof.
  intros. unfold embedCoefficients. cbv zeta.
  destruct bit; by rewrite !list_lookup_total_insert_ne.
Qed.

Lemma extractCoefficientBit_gt (d : list R) :
  extractCoefficientBit d = true ↔ d !!! 18%nat > d !!! 19%nat.
Proof.
  unfold extractCoefficientBit. cbv zeta. simpl.
  destruct (Rlt_dec (d !!! 19%nat) (d !!! 18%nat)); split; (done || lra).
Qed.

Lemma embedCoefficients_extract :
  0 < MinGap config + Delta config →
  extractCoefficientBit (embedCoefficients config bit dctBlock) = bit.
Proof.
  intros Hgap.
  pose proof embedCoefficients_22 as H22. pose proof embedCoefficients_23 as H23.
  cbv zeta in H22, H23.
  destruct (extractCoefficientBit (embedCoefficients config bit dctBlock)) eqn:He.
  - apply extractCoefficientBit_gt in He. rewrite H22, H23 in He.
    destruct bit; [done|lra].
  - destruct bit; [|done].
    assert (embedCoefficients config true dctBlock !!! 18%nat
            > embedCoefficients config true dctBlock !!! 19%nat) as Hgt
      by (rewrite H22, H23; lra).
    apply extractCoefficientBit_gt in Hgt. congruence.
Qed.
End coefficient_rule_real.

(** C1, as the claim states it, fails in the arithmetic of the machine.
    With the default configuration (gap 15) and the coefficients 0.1 and
    0.2, the new coefficients do not add up to the old sum; with a gap of
    [1e-13] around the coefficients 1000 and 1000, the halves of the gap
    are rounded away and bit 1 is read back as 0. *)
Lemma coefficient_rule_binary64 :
  let d1 : list float := <[18%nat := 0x1.999999999999ap-4%float]>
                           (<[19%nat := 0x1.999999999999ap-3%float]> (replicate 64 0%float)) in
  let c2 : DCTConfig float :=
    {| ECC := ecc.ECCSchemeRepetition3; Delta := 0x1.c25c268497682p-44%float;
       MinGap := 0%float; UseAllBlocks := true; OutputFormat := "" |} in
  let d2 : list float := <[18%nat := 1000%float]> (<[19%nat := 1000%float]> (replicate 64 0%float)) in
  PrimFloat.ltb 0 (MinGap DefaultDCTConfig + Delta DefaultDCTConfig)%float = true
  ∧ PrimFloat.eqb
      (embedCoefficients DefaultDCTConfig true d1 !!! 18%nat
       + embedCoefficients DefaultDCTConfig true d1 !!! 19%nat)%float
      (d1 !!! 18%nat + d1 !!! 19%nat)%float = false
  ∧ PrimFloat.ltb 0 (MinGap c2 + Delta c2)%float = true
  ∧ extractCoefficientBit (embedCoefficients c2 true d2) = false.
Proof. vm_compute. done. Qed.

(** ** The forward transform over the reals *)

Section dct_real.
Import RealArith.
Local Open Scope R_scope.

Lemma for_loop_Rsum (n : nat) (g : nat → R) (s : R) :
  for_loop n (λ i sum, sum + g i) s = s + Rsum n g.
Proof.
  induction n as [|n IH]; simpl.
  - unfold for_loop. simpl. lra.
  - rewrite for_loop_snoc, IH. lra.
Qed.

Lemma cosTable_lookup (i j : nat) :
  (i < 8)%nat → (j < 8)%nat →
  (dct.cosTable (F := R) !!! i) !!! j
  = Rtrigo_def.cos (IZR (2 * Z.of_nat i + 1) * IZR (Z.of_nat j) * PI / 16).
Proof.
  intros Hi Hj.
  do 8 (destruct i as [|i]; [do 8 (destruct j as [|j]; [reflexivity|]); lia|]).
  lia.
Qed.
End dct_real.

(** A double loop of writes [a[idx i j] = val i j] at pairwise different
    places. *)
Lemma for_loop2_insert {A : Type} (n m : nat) (idx : nat → nat → nat)
    (val : nat → nat → A) (a : list A) :
  (∀ i j i' j', (i < n)%nat → (j < m)%nat → (i' < n)%nat → (j' < m)%nat →
     idx i j = idx i' j' → i = i' ∧ j = j') →
  (∀ i j, (i < n)%nat → (j < m)%nat → (idx i j < length a)%nat) →
  let r := for_loop n (λ i a, for_loop m (λ j a, <[idx i j := val i j]> a) a) a in
  length r = length a
  ∧ ∀ i j, (i < n)%nat → (j < m)%nat → r !! idx i j = Some (val i j).
Proof.
  intros Hinj Hlen. cbv zeta. rewrite for_loop_nested.
  destruct (decide (m = 0%nat)) as [->|Hm].
  { rewrite Nat.mul_0_r. split; [done|]. intros; lia. }
  assert (Hdm : ∀ t, (t < n * m)%nat → (t / m < n)%nat ∧ (t `mod` m < m)%nat).
  { intros t Ht. split; [apply Nat.Div0.div_lt_upper_bound; lia|].
    apply Nat.mod_upper_bound. done. }
  destruct (for_loop_insert (n * m) (λ t, idx (t / m) (t `mod` m))%nat
              (λ t, val (t / m) (t `mod` m))%nat a) as (Hl & Hr & _).
  - intros t t' Ht Ht' Heq.
    destruct (Hdm t Ht), (Hdm t' Ht').
    destruct (Hinj (t / m) (t `mod` m) (t' / m) (t' `mod` m))%nat as [Hq Hr]; try done.
    rewrite (Nat.div_mod_eq t m), (Nat.div_mod_eq t' m). by rewrite Hq, Hr.
  - intros t Ht. destruct (Hdm t Ht). by apply Hlen.
  - split; [done|]. intros i j Hi Hj.
    specialize (Hr (i * m + j)%nat).
    replace ((i * m + j) / m)%nat with i in Hr.
    2:{ rewrite Nat.add_comm, Nat.div_add by done. by rewrite Nat.div_small. }
    replace ((i * m + j) `mod` m)%nat with j in Hr.
    2:{ rewrite Nat.add_comm, Nat.Div0.mod_add. symmetry. by apply Nat.mod_small. }
    apply Hr. nia.
Qed.

Section dct_real_transform.
Import RealArith.
Local Open Scope R_scope.

Lemma Rsum_ext (n : nat) (f g : nat → R) :
  (∀ i, (i < n)%nat → f i = g i) → Rsum n f = Rsum n g.
Proof.
  intros Hfg. induction n as [|n IH]; [done|].
  simpl. rewrite IH, Hfg by (intros; (apply Hfg || idtac); lia). done.
Qed.

Lemma Rsum_scal (n : nat) (c : R) (f : nat → R) :
  Rsum n (λ i, c * f i) = c * Rsum n f.
Proof. induction n as [|n IH]; simpl; [lra|]. rewrite IH. lra. Qed.

Lemma DCT8x8_lookup (src dst : list R) (u v : nat) :
  length dst = 64%nat → (u < 8)%nat → (v < 8)%nat →
  dct.DCT8x8 src dst !! (u * 8 + v)%nat
  = Some (dct_norm u *
          Rsum 8 (λ row, row_pass src row v
                         * Rtrigo_def.cos (IZR (2 * Z.of_nat row + 1) * IZR (Z.of_nat u) * PI / 16))).
Proof.
  intros Hdst Hu Hv. unfold dct.DCT8x8. cbv zeta.
  set (temp := for_loop 8 _ (replicate 64 (f_of_Z 0))).
  assert (Htemp : ∀ row freq, (row < 8)%nat → (freq < 8)%nat →
            temp !!! (row * 8 + freq)%nat = row_pass src row freq).
  { intros row freq Hrow Hfreq. apply list_lookup_total_correct.
    destruct (for_loop2_insert 8 8 (λ row freq, row * 8 + freq)%nat
                (λ row freq, row_pass src row freq) (replicate 64 (f_of_Z 0)))
      as [_ Hr].
    - intros; lia.
    - intros. rewrite length_replicate. lia.
    - rewrite <- (Hr row freq) by done. f_equal. }
  destruct (for_loop2_insert 8 8 (λ colFreq rowFreq, rowFreq * 8 + colFreq)%nat
    (λ colFreq rowFreq,
       dct_norm rowFreq *
       Rsum 8 (λ row, temp !!! (row * 8 + colFreq)%nat
                      * Rtrigo_def.cos (IZR (2 * Z.of_nat row + 1)
                                        * IZR (Z.of_nat rowFreq) * PI / 16))) dst)
    as [_ Hr].
  - intros; lia.
  - intros. rewrite Hdst. lia.
  - specialize (Hr v u Hv Hu). cbv beta in Hr.
    rewrite (Rsum_ext 8 _ (λ row, row_pass src row v
        * Rtrigo_def.cos (IZR (2 * Z.of_nat row + 1) * IZR (Z.of_nat u) * PI / 16))) in Hr.
    2:{ intros row Hrow. by rewrite Htemp. }
    rewrite <- Hr. f_equal.
Qed.

Lemma DCT8x8_length (src dst : list R) : length (dct.DCT8x8 src dst) = length dst.
Proof.
  unfold dct.DCT8x8. cbv zeta. rewrite for_loop_nested.
  generalize (8 * 8)%nat as n. intros n. induction n as [|n IH]; [done|].
  rewrite for_loop_snoc. by rewrite length_insert.
Qed.

(** The two passes together are the double sum. *)
Lemma row_pass_column_pass (src : list R) (u v : nat) :
  dct_norm u *
  Rsum 8 (λ row, row_pass src row v
                 * Rtrigo_def.cos (IZR (2 * Z.of_nat row + 1) * IZR (Z.of_nat u) * PI / 16))
  = dct_reference src u v.
Proof.
  unfold dct_reference, row_pass.
  generalize (dct_norm u) as cu. generalize (dct_norm v) as cv. intros cv cu.
  rewrite Rmult_assoc. f_equal.
  rewrite <- Rsum_scal. apply Rsum_ext. intros row _.
  set (cosU := Rtrigo_def.cos (IZR (2 * Z.of_nat row + 1) * IZR (Z.of_nat u) * PI / 16)).
  transitivity (cv * Rsum 8 (λ col, cosU *
    (src !!! (row * 8 + col)%nat
     * Rtrigo_def.cos (IZR (2 * Z.of_nat col + 1) * IZR (Z.of_nat v) * PI / 16)))).
  { rewrite Rsum_scal. ring. }
  f_equal. apply Rsum_ext. intros col _. ring.
Qed.
End dct_real_transform.

(** C1, as amended (the coefficient rule in exact arithmetic).  Reading
    the [float64] operations over the real numbers: for all coefficients
    [A] (2,2) and [B] (2,3) of a block and every configuration with
    [MinGap + Delta > 0], the rule sets [A' = midpoint + gap/2] and
    [B' = midpoint - gap/2] for bit 1 and the opposite for bit 0, with
    [midpoint = (A+B)/2] and [gap = MinGap + Delta]; so [A' + B' = A + B],
    [|A' - B'| = gap], the comparison [A' > B'] gives the embedded bit
    whatever [A] and [B] were, and no other coefficient changes.  The
    extraction reads the bit [A > B], hence 0 when [A = B]. *)
Theorem coefficient_rule_over_reals
    (config : DCTConfig R) (bit : bool) (dctBlock : list R) :
  length dctBlock = 64%nat →
  (0 < MinGap config + Delta config)%R →
  let A := dctBlock !!! 18%nat in
  let B := dctBlock !!! 19%nat in
  let gap := (MinGap config + Delta config)%R in
  let midpoint := ((A + B) / 2)%R in
  let A' := embedCoefficients config bit dctBlock !!! 18%nat in
  let B' := embedCoefficients config bit dctBlock !!! 19%nat in
  A' = (if bit then midpoint + gap / 2 else midpoint - gap / 2)%R
  ∧ B' = (if bit then midpoint - gap / 2 else midpoint + gap / 2)%R
  ∧ (A' + B' = A + B)%R
  ∧ Rabs (A' - B') = gap
  ∧ extractCoefficientBit (embedCoefficients config bit dctBlock) = bit
  ∧ (∀ k : nat, k ≠ 18%nat → k ≠ 19%nat →
       embedCoefficients config bit dctBlock !!! k = dctBlock !!! k)
  ∧ (∀ d : list R, extractCoefficientBit d = true ↔ (d !!! 18%nat > d !!! 19%nat)%R)
  ∧ (∀ d : list R, d !!! 18%nat = d !!! 19%nat → extractCoefficientBit d = false).
Proof.
  intros Hlen Hgap A B gap midpoint A' B'.
  assert (0 < gap)%R as Hgap' by exact Hgap.
  pose proof (embedCoefficients_22 config bit dctBlock Hlen) as H22.
  pose proof (embedCoefficients_23 config bit dctBlock Hlen) as H23.
  cbv zeta in H22, H23. fold A B in H22, H23. fold midpoint gap in H22, H23.
  fold A' in H22. fold B' in H23.
  split; [done|]. split; [done|].
  split; [rewrite H22, H23; destruct bit; unfold midpoint; lra|].
  split.
  { rewrite H22, H23. destruct bit.
    - replace (midpoint + gap / 2 - (midpoint - gap / 2))%R with gap by lra.
      apply Rabs_right. lra.
    - replace (midpoint - gap / 2 - (midpoint + gap / 2))%R with (- gap)%R by lra.
      rewrite Rabs_Ropp. apply Rabs_right. lra. }
  split; [by apply embedCoefficients_extract|].
  split; [intros k; by apply embedCoefficients_other|].
  split; [apply extractCoefficientBit_gt|].
  intros d Hd. destruct (extractCoefficientBit d) eqn:He; [|done].
  apply extractCoefficientBit_gt in He. lra.
Qed.

Lemma coefficient_rule_over_reals_witness :
  length (replicate 64 0%R) = 64%nat
  ∧ (0 < MinGap (F := R) DefaultDCTConfig + Delta (F := R) DefaultDCTConfig)%R
  ∧ extractCoefficientBit
      (embedCoefficients (F := R) DefaultDCTConfig true (replicate 64 0%R)) = true.
Proof.
  assert (0 < MinGap (F := R) DefaultDCTConfig + Delta (F := R) DefaultDCTConfig)%R
    as Hgap by (simpl; lra).
  split; [reflexivity|]. split; [exact Hgap|].
  pose proof (coefficient_rule_over_reals DefaultDCTConfig true (replicate 64 0%R)
                eq_refl Hgap) as Hrule.
  cbv zeta in Hrule. destruct Hrule as (_ & _ & _ & _ & He & _). exact He.
Defined.

(** C8 (the forward transform is the reference formula).  Over the real
    numbers, for every 8x8 block [src] and every pair of frequencies
    [(u, v)], the two passes of [DCT8x8] leave at [dst[u*8 + v]] the
    double sum [C(u) C(v) Σ_row Σ_col src[row,col] cos((2 row+1) u π/16)
    cos((2 col+1) v π/16)] with [C(0) = sqrt(1/8)] and
    [C(k) = sqrt(2/8)] for [k > 0]. *)
Theorem DCT8x8_reference_formula (src dst : list R) (u v : nat) :
  length src = 64%nat → length dst = 64%nat → (u < 8)%nat → (v < 8)%nat →
  dct.DCT8x8 src dst !! (u * 8 + v)%nat = Some (dct_reference src u v)
  ∧ length (dct.DCT8x8 src dst) = 64%nat
  ∧ dct_norm 0 = R_sqrt.sqrt (1 / 8)
  ∧ (∀ k : nat, (0 < k)%nat → dct_norm k = R_sqrt.sqrt (2 / 8)).
Proof.
  intros _ Hdst Hu Hv. split.
  { rewrite DCT8x8_lookup by done. by rewrite row_pass_column_pass. }
  split; [by rewrite DCT8x8_length|]. split; [done|].
  intros k Hk. unfold dct_norm. case_decide; [lia|done].
Qed.

Lemma DCT8x8_reference_formula_witness :
  length (replicate 64 1%R) = 64%nat ∧ length (replicate 64 0%R) = 64%nat
  ∧ (2 < 8)%nat ∧ (3 < 8)%nat
  ∧ dct.DCT8x8 (replicate 64 1%R) (replicate 64 0%R) !! (2 * 8 + 3)%nat
    = Some (dct_reference (replicate 64 1%R) 2 3).
Proof.
  split; [reflexivity|]. split; [reflexivity|]. split; [lia|]. split; [lia|].
  apply (DCT8x8_reference_formula (replicate 64 1%R) (replicate 64 0%R) 2 3);
    [reflexivity|reflexivity|lia|lia].
Defined.

(** ** Capacity *)

Lemma ImageToYCbCrPlanes_size {F : Type} `{Float64 F} (img : Image) :
  Width (ImageToYCbCrPlanes (F := F) img).1.1 = Dx img
  ∧ Height (ImageToYCbCrPlanes (F := F) img).1.1 = Dy img
  ∧ Stride (ImageToYCbCrPlanes (F := F) img).1.1 = Dx img.
Proof.
  unfold ImageToYCbCrPlanes. cbv zeta.
  destruct (for_loop (Z.to_nat (Dy img)) _ _) as [[yPix cbPix] crPix]. done.
Qed.

(** Whole blocks of a [w] by [h] image, when [w * h] samples fit a slice. *)
Lemma CapacityBits_blocks (w h : Z) :
  0 ≤ w → 0 ≤ h → w * h < 2 ^ 63 →
  imgutil.CapacityBits w h = (w `div` 8) * (h `div` 8)
  ∧ 0 ≤ (w `div` 8) * (h `div` 8) < 2 ^ 63.
Proof.
  intros Hw Hh Hwh. unfold imgutil.CapacityBits. cbv zeta.
  rewrite !Z.quot_div_nonneg by lia.
  assert (0 ≤ w `div` 8 ≤ w) by (split; [apply Z.div_pos; lia|apply Z.div_le_upper_bound; lia]).
  assert (0 ≤ h `div` 8 ≤ h) by (split; [apply Z.div_pos; lia|apply Z.div_le_upper_bound; lia]).
  assert (0 ≤ w `div` 8 * (h `div` 8) < 2 ^ 63) by nia.
  split; [|done]. apply int_wrap_small. lia.
Qed.

Lemma GetScheme_Repetition3 : ecc.GetScheme ecc.ECCSchemeRepetition3 = Ok ecc.Repetition3.
Proof. reflexivity. Qed.

Lemma EncodeFrame_length (frame : list byte) :
  ∃ bits, ecc.EncodeFrame ecc.Repetition3 frame = Ok bits
          ∧ length bits = (length frame * 8 * 3)%nat.
Proof.
  eexists. split; [apply Repetition3_EncodeFrame_triples|].
  by rewrite triples_length, BytesToBits_length.
Qed.

Section capacity.
Context {F : Type} `{Float64 F} `{Codecs}.

Lemma EmbedMessageDCT_too_long (input message : list byte)
    (opts : option (EmbedOptions F)) (img : Image) (format : string) :
  imgutil.LoadImage input = Ok (img, format) →
  ECC (Config (default DefaultEmbedOptions opts)) = ecc.ECCSchemeRepetition3 →
  0 ≤ Dx img → 0 ≤ Dy img → Dx img * Dy img < 2 ^ 63 →
  (16 + Z.of_nat (length message)) * 8 * 3 > (Dx img `div` 8) * (Dy img `div` 8) →
  EmbedMessageDCT (Some input) message opts None
  = (Err ErrMessageTooLong, Some (ImageToYCbCrPlanes img).1.1).
Proof.
  intros Hload Hecc Hw Hh Hwh Hlong.
  unfold EmbedMessageDCT.
  replace (match opts with Some o => o | None => DefaultEmbedOptions end)
    with (default DefaultEmbedOptions opts) by (by destruct opts).
  rewrite Hload, Hecc, BuildFrame_bytes, GetScheme_Repetition3.
  destruct (EncodeFrame_length (frame_bytes message ecc.ECCSchemeRepetition3))
    as (bits & Hbits & Hblen).
  destruct (ImageToYCbCrPlanes_size (F := F) img) as (HW & HH & _).
  destruct (CapacityBits_blocks (Dx img) (Dy img) Hw Hh Hwh) as [Hcap _].
  unfold mbind, M_bind, lift, put, on_error. cbv beta iota.
  destruct (ImageToYCbCrPlanes img) as [[yPlane cbPlane] crPlane].
  simpl in HW, HH. simpl fst. cbv beta iota.
  rewrite Hbits. cbv beta iota.
  rewrite HW, HH, Hcap, Hblen, frame_bytes_length.
  case_decide as Hc; [done|]. lia.
Qed.
End capacity.

Lemma expansionFactor_Repetition3 : expansionFactor ecc.Repetition3 = Ok 3.
Proof. vm_compute. reflexivity. Qed.

Section capacity_info.
Context {F : Type} `{Float64 F} `{Codecs}.

Lemma GetCapacityInfoFromData_Repetition3 (data : list byte) (img : Image)
    (format : string) :
  imgutil.LoadImage data = Ok (img, format) →
  0 ≤ Dx img → 0 ≤ Dy img → Dx img * Dy img < 2 ^ 63 →
  GetCapacityInfoFromData data ecc.ECCSchemeRepetition3
  = Ok (capacity_of (Dx img) (Dy img)).
Proof.
  intros Hload Hw Hh Hwh. unfold GetCapacityInfoFromData.
  rewrite Hload, GetScheme_Repetition3.
  destruct (ImageToYCbCrPlanes_size (F := F) img) as (HW & HH & _).
  unfold mbind, Result_bind, on_error. cbv beta iota.
  destruct (ImageToYCbCrPlanes img) as [[yPlane cbPlane] crPlane].
  simpl in HW, HH. cbv beta iota zeta.
  rewrite expansionFactor_Repetition3, HW, HH.
  destruct (CapacityBits_blocks (Dx img) (Dy img) Hw Hh Hwh) as [Hcap Hrange].
  unfold imgutil.CapacityBits in Hcap. cbv zeta in Hcap. rewrite Hcap.
  change (int_wrap (8 * 3)) with 24.
  case_decide as H24; [done|].
  rewrite !Z.quot_div_nonneg by lia.
  set (cap := Dx img `div` 8 * (Dy img `div` 8)) in *.
  assert (0 ≤ cap `div` 24 ≤ cap)
    by (split; [apply Z.div_pos; lia|apply Z.div_le_upper_bound; lia]).
  change (Z.of_nat framing.HeaderSize) with 16.
  rewrite int_wrap_small by lia.
  unfold capacity_of. fold cap. cbv zeta.
  case_decide.
  - by rewrite Z.max_l by lia.
  - by rewrite Z.max_r by lia.
Qed.
End capacity_info.

(** The character estimate in exact arithmetic. *)
Lemma Rtrunc_div_1_5 (n : Z) :
  0 ≤ n →
  f_trunc (f_of_Z (F := R) n / f_lit 15 10)%f64 = (2 * n) `div` 3
  ∧ f_trunc (f_of_Z (F := R) n / f_lit 15 10)%f64 = Zfloor (IZR n / 1.5)%R.
Proof.
  intros Hn. simpl. unfold f_lit. simpl. unfold RealArith.Rtrunc.
  assert ((IZR n / (15 / 10))%R = (IZR n / 1.5)%R) as -> by (field_simplify_eq; lra).
  assert (0 <= IZR n)%R by (by apply IZR_le).
  destruct (Rlt_dec (IZR n / 1.5) 0) as [Hneg|_]; [lra|].
  assert (Hfloor : (IZR ((2 * n) `div` 3) <= IZR n / 1.5 < IZR ((2 * n) `div` 3) + 1)%R).
  { pose proof (Z.div_mod (2 * n) 3 ltac:(lia)) as Hdm.
    pose proof (Z.mod_pos_bound (2 * n) 3 ltac:(lia)) as Hmb.
    assert (3 * ((2 * n) `div` 3) ≤ 2 * n < 3 * ((2 * n) `div` 3) + 3) as [Hlo Hhi] by lia.
    apply IZR_le in Hlo. apply IZR_lt in Hhi.
    rewrite !mult_IZR in Hlo. rewrite plus_IZR, !mult_IZR in Hhi. lra. }
  split.
  - symmetry. apply Int_part_spec. lra.
  - rewrite (Zfloor_eq _ _ Hfloor). symmetry. apply Int_part_spec. lra.
Qed.

(** ** The character estimate in binary64

    [float64(n) / 1.5] is followed through the specification of binary64
    that the standard library gives for its primitive floats
    ([SpecFloat]): the conversion of [n], the division by the float
    [1.5 = 3 * 2^51 * 2^-52], the rounding to nearest even, and the
    truncation. *)

Section binary64_division.

Lemma digits2_pos_bounds (p : positive) :
  2 ^ (Z.pos (digits2_pos p) - 1) ≤ Z.pos p < 2 ^ Z.pos (digits2_pos p).
Proof.
  induction p as [p IH|p IH|]; simpl digits2_pos; [| |done].
  - rewrite Pos2Z.inj_succ. change (Z.pos p~1) with (2 * Z.pos p + 1).
    replace (Z.succ (Z.pos (digits2_pos p)) - 1) with (Z.succ (Z.pos (digits2_pos p) - 1)) by lia.
    rewrite !Z.pow_succ_r by lia.
    destruct IH as [IH1 IH2]. revert IH1 IH2.
    generalize (2 ^ (Z.pos (digits2_pos p) - 1)) (2 ^ Z.pos (digits2_pos p)). lia.
  - rewrite Pos2Z.inj_succ. change (Z.pos p~0) with (2 * Z.pos p).
    replace (Z.succ (Z.pos (digits2_pos p)) - 1) with (Z.succ (Z.pos (digits2_pos p) - 1)) by lia.
    rewrite !Z.pow_succ_r by lia.
    destruct IH as [IH1 IH2]. revert IH1 IH2.
    generalize (2 ^ (Z.pos (digits2_pos p) - 1)) (2 ^ Z.pos (digits2_pos p)). lia.
Qed.

Lemma Zdigits2_unique (m d : Z) :
  2 ^ (d - 1) ≤ m < 2 ^ d → 0 < m → Zdigits2 m = d.
Proof.
  intros Hm Hpos. destruct m as [|p|p]; [lia| |lia]. simpl.
  pose proof (digits2_pos_bounds p) as Hp.
  set (d' := Z.pos (digits2_pos p)) in *.
  destruct (Z.lt_trichotomy d d') as [Hlt|[Heq|Hgt]]; [|done|].
  - pose proof (Z.pow_le_mono_r 2 d (d' - 1) ltac:(lia) ltac:(lia)). lia.
  - pose proof (Z.pow_le_mono_r 2 d' (d - 1) ltac:(lia) ltac:(lia)). lia.
Qed.

Lemma iter_xO_pow (p k : positive) : Z.pos (Pos.iter xO p k) = Z.pos p * 2 ^ Z.pos k.
Proof.
  induction k as [|k IH] using Pos.peano_ind.
  - simpl. lia.
  - rewrite Pos.iter_succ.
    change (Z.pos (Pos.iter xO p k)~0) with (2 * Z.pos (Pos.iter xO p k)).
    rewrite IH, Pos2Z.inj_succ, Z.pow_succ_r by lia. lia.
Qed.

Lemma fexp_53 (x : Z) : -1021 ≤ x → fexp 53 1024 x = x - 53.
Proof. intros Hx. unfold fexp, emin. lia. Qed.

Lemma shr_record_of_loc_m (m : Z) (l : location) : shr_m (shr_record_of_loc m l) = m.
Proof. by destruct l as [|[]]. Qed.

Lemma loc_of_shr_record_of_loc (m : Z) (l : location) :
  loc_of_shr_record (shr_record_of_loc m l) = l.
Proof. by destruct l as [|[]]. Qed.

Lemma shr_1_pos (m : Z) (r s : bool) :
  0 < m →
  shr_1 {| shr_m := m; shr_r := r; shr_s := s |}
  = {| shr_m := m `div` 2; shr_r := Z.odd m; shr_s := r || s |}.
Proof.
  intros Hm. destruct m as [|p|p]; [lia| |lia].
  destruct p as [p|p|]; simpl shr_1; f_equal.
  - change (Z.pos p~1) with (2 * Z.pos p + 1). apply (Z.div_unique _ _ _ 1); lia.
  - change (Z.pos p~0) with (2 * Z.pos p). apply (Z.div_unique _ _ _ 0); lia.
Qed.

Lemma round_nearest_even_bounds (m : Z) (l : location) :
  m ≤ round_nearest_even m l ≤ m + 1.
Proof. destruct l as [|[]]; simpl; try lia. destruct (Z.even m); lia. Qed.

Lemma shr_fexp_53 (m e : Z) (l : location) :
  2 ^ 52 ≤ m < 2 ^ 53 → -1074 ≤ e →
  shr_fexp 53 1024 m e l = (shr_record_of_loc m l, e).
Proof.
  intros Hm He. unfold shr_fexp.
  rewrite (Zdigits2_unique m 53) by (done || lia).
  rewrite fexp_53 by lia.
  replace (53 + e - 53 - e) with 0 by lia. reflexivity.
Qed.

Lemma shr_fexp_54 (m e : Z) (l : location) :
  2 ^ 53 ≤ m < 2 ^ 54 → -1075 ≤ e →
  shr_fexp 53 1024 m e l = (shr_1 (shr_record_of_loc m l), e + 1).
Proof.
  intros Hm He. unfold shr_fexp.
  rewrite (Zdigits2_unique m 54) by (done || lia).
  rewrite fexp_53 by lia.
  replace (54 + e - 53 - e) with 1 by lia. reflexivity.
Qed.

Lemma finite_of_pos (s : bool) (m e : Z) :
  0 < m → e ≤ 971 →
  match m with
  | 0 => S754_zero s
  | Z.pos p => if e <=? 1024 - 53 then S754_finite s p e else S754_infinity s
  | Z.neg _ => S754_nan
  end = S754_finite s (Z.to_pos m) e.
Proof.
  intros Hm He. destruct m as [|p|p]; [lia| |lia].
  destruct (Z.leb_spec e (1024 - 53)); [done|lia].
Qed.

(** Rounding a 53-bit quotient: no shift. *)
Lemma binary_round_aux_53 (s : bool) (mx ex : Z) (lx : location) :
  2 ^ 52 ≤ mx → round_nearest_even mx lx < 2 ^ 53 → -1074 ≤ ex ≤ 971 →
  binary_round_aux 53 1024 s mx ex lx
  = S754_finite s (Z.to_pos (round_nearest_even mx lx)) ex.
Proof.
  intros Hmx Hr Hex. pose proof (round_nearest_even_bounds mx lx) as Hb.
  unfold binary_round_aux.
  rewrite shr_fexp_53 by lia.
  rewrite shr_record_of_loc_m, loc_of_shr_record_of_loc.
  rewrite shr_fexp_53 by lia.
  rewrite shr_record_of_loc_m.
  apply finite_of_pos; lia.
Qed.

(** Rounding a 54-bit quotient: one bit is shifted out. *)
Lemma binary_round_aux_54 (s : bool) (mx ex : Z) (lx : location) :
  2 ^ 53 ≤ mx < 2 ^ 54 →
  round_nearest_even (mx `div` 2)
    (loc_of_shr_record (shr_1 (shr_record_of_loc mx lx))) < 2 ^ 53 →
  -1075 ≤ ex ≤ 970 →
  binary_round_aux 53 1024 s mx ex lx
  = S754_finite s
      (Z.to_pos (round_nearest_even (mx `div` 2)
                   (loc_of_shr_record (shr_1 (shr_record_of_loc mx lx)))))
      (ex + 1).
Proof.
  intros Hmx Hr Hex.
  assert (shr_m (shr_1 (shr_record_of_loc mx lx)) = mx `div` 2) as Hm.
  { destruct lx as [|[]]; simpl shr_record_of_loc; by rewrite shr_1_pos by lia. }
  pose proof (round_nearest_even_bounds (mx `div` 2)
                (loc_of_shr_record (shr_1 (shr_record_of_loc mx lx)))) as Hb.
  assert (2 ^ 52 ≤ mx `div` 2) by (apply Z.div_le_lower_bound; lia).
  unfold binary_round_aux.
  rewrite shr_fexp_54 by lia.
  rewrite Hm.
  rewrite shr_fexp_53 by lia.
  rewrite shr_record_of_loc_m.
  apply finite_of_pos; lia.
Qed.

(** The conversion of a positive integer of [d ≤ 53] bits is exact. *)
Lemma binary_normalize_exact (n d : Z) :
  1 ≤ d ≤ 53 → 2 ^ (d - 1) ≤ n < 2 ^ d →
  binary_normalize 53 1024 n 0 false
  = S754_finite false (Z.to_pos (n * 2 ^ (53 - d))) (d - 53).
Proof.
  intros Hd Hn.
  assert (0 < 2 ^ (d - 1)) by (apply Z.pow_pos_nonneg; lia).
  destruct n as [|p|p]; [lia| |lia].
  unfold binary_normalize, binary_round.
  change (Z.pos (digits2_pos p)) with (Zdigits2 (Z.pos p)).
  rewrite (Zdigits2_unique (Z.pos p) d) by (done || lia).
  rewrite fexp_53 by lia. rewrite Z.add_0_r.
  assert (∃ mz, shl_align p 0 (d - 53) = (mz, d - 53)
                ∧ Z.pos mz = Z.pos p * 2 ^ (53 - d)) as (mz & -> & Hmz).
  { unfold shl_align. rewrite Z.sub_0_r.
    destruct (d - 53) as [|k|k] eqn:Hk; [|lia|].
    - exists p. split; [done|]. replace (53 - d) with 0 by lia. simpl. lia.
    - eexists. split; [reflexivity|]. rewrite iter_xO_pow. do 2 f_equal. lia. }
  assert (2 ^ 52 ≤ Z.pos mz < 2 ^ 53) as Hb.
  { rewrite Hmz.
    assert (2 ^ 52 = 2 ^ (d - 1) * 2 ^ (53 - d)) as ->
      by (rewrite <- Z.pow_add_r by lia; f_equal; lia).
    assert (2 ^ 53 = 2 ^ d * 2 ^ (53 - d)) as ->
      by (rewrite <- Z.pow_add_r by lia; f_equal; lia).
    assert (0 < 2 ^ (53 - d)) by (apply Z.pow_pos_nonneg; lia).
    nia. }
  rewrite binary_round_aux_53 by (simpl round_nearest_even; lia).
  simpl round_nearest_even. by rewrite <- Hmz.
Qed.

(** The division of a normal float by [1.5]. *)
Lemma SFdiv_1_5 (m : positive) (e : Z) :
  2 ^ 52 ≤ Z.pos m < 2 ^ 53 → -52 ≤ e ≤ 0 →
  SFdiv 53 1024 (S754_finite false m e) (S754_finite false 6755399441055744 (-52))
  = binary_round_aux 53 1024 false ((4 * Z.pos m) `div` 3) (e - 1)
      (third_location ((4 * Z.pos m) `mod` 3)).
Proof.
  intros Hm He. unfold SFdiv, SFdiv_core_binary.
  rewrite (Zdigits2_unique (Z.pos m) 53) by (done || lia).
  replace (Zdigits2 6755399441055744) with 53 by reflexivity.
  rewrite fexp_53 by lia.
  replace (Z.min (53 + e - (53 + -52) - 53) (e - -52)) with (e - 1) by lia.
  replace (e - -52 - (e - 1)) with 53 by lia.
  rewrite Z.shiftl_mul_pow2 by lia.
  assert (Z.pos m * 2 ^ 53 = (4 * Z.pos m) * 2 ^ 51) as -> by lia.
  change 6755399441055744 with (3 * 2 ^ 51).
  assert (Z.div_eucl (4 * Z.pos m * 2 ^ 51) (3 * 2 ^ 51)
          = ((4 * Z.pos m) `div` 3, (4 * Z.pos m) `mod` 3 * 2 ^ 51)) as ->.
  { rewrite <- (Z.div_mul_cancel_r (4 * Z.pos m) 3 (2 ^ 51)) by lia.
    rewrite <- (Z.mul_mod_distr_r (4 * Z.pos m) 3 (2 ^ 51)) by lia.
    unfold Z.div, Z.modulo. by destruct (Z.div_eucl _ _). }
  f_equal.
  pose proof (Z.mod_pos_bound (4 * Z.pos m) 3 ltac:(lia)) as Hrho.
  set (rho := (4 * Z.pos m) `mod` 3) in *.
  unfold new_location. replace (Z.even (3 * 2 ^ 51)) with true by reflexivity.
  unfold new_location_even, third_location.
  destruct (Z.eqb_spec rho 0) as [->|Hne0]; [reflexivity|].
  destruct (Z.eqb_spec (rho * 2 ^ 51) 0) as [Hz|_]; [lia|].
  f_equal. destruct (Z.eqb_spec rho 1) as [->|Hne1]; [reflexivity|].
  assert (rho = 2) as -> by lia. reflexivity.
Qed.

End binary64_division.

Section binary64_estimate.

Lemma shifted_location (q rho : Z) :
  0 < q → 0 ≤ rho < 3 →
  loc_of_shr_record (shr_1 (shr_record_of_loc q (third_location rho)))
  = if Z.odd q then (if rho =? 0 then loc_Inexact Eq else loc_Inexact Gt)
    else (if rho =? 0 then loc_Exact else loc_Inexact Lt).
Proof.
  intros Hq Hrho. unfold third_location.
  destruct (Z.eqb_spec rho 0) as [->|Hne0].
  - simpl shr_record_of_loc. rewrite shr_1_pos by done. by destruct (Z.odd q).
  - destruct (Z.eqb_spec rho 1) as [->|Hne1];
      simpl shr_record_of_loc; rewrite shr_1_pos by done; by destruct (Z.odd q).
Qed.

(** The arithmetic of the two cases.  [C = 2^(53-d)] scales [n] to the
    53-bit significand [n * C] of [float64(n)]; [q] and [rho] are the
    quotient and the remainder of four times the significand by 3. *)
Lemma estimate_no_shift (n C q rho : Z) :
  0 < C → 0 ≤ n → 0 ≤ rho < 3 → 4 * (n * C) = 3 * q + rho →
  (q + (if rho =? 2 then 1 else 0)) `div` (2 * C) = (2 * n) `div` 3.
Proof.
  intros HC Hn Hrho Hq.
  pose proof (Z.div_mod (2 * n) 3 ltac:(lia)) as Hdm.
  pose proof (Z.mod_pos_bound (2 * n) 3 ltac:(lia)) as Hj.
  set (t := (2 * n) `div` 3) in *. set (j := (2 * n) `mod` 3) in *.
  clearbody t j.
  assert (2 * (n * C) = 3 * (C * t) + C * j) as HM
    by (replace (2 * (n * C)) with (2 * n * C) by ring; rewrite Hdm; ring).
  set (X := C * t) in *.
  symmetry.
  apply (Z.div_unique _ _ _ (q + (if rho =? 2 then 1 else 0) - 2 * X));
    [|unfold X; ring].
  left.
  assert (j = 0 ∨ j = 1 ∨ j = 2) as [-> | [-> | ->]] by lia;
    assert (rho = 0 ∨ rho = 1 ∨ rho = 2) as [-> | [-> | ->]] by lia;
    simpl Z.eqb; cbv iota; lia.
Qed.

Lemma estimate_shift (n C q rho : Z) :
  2 ≤ C → 0 ≤ n → 0 ≤ rho < 3 → 4 * (n * C) = 3 * q + rho → 0 ≤ q →
  (q `div` 2 + (if Z.odd q && negb (rho =? 0) then 1 else 0)) `div` C = (2 * n) `div` 3
  ∧ (Z.odd q = true → rho ≠ 0).
Proof.
  intros HC Hn Hrho Hq Hq0.
  pose proof (Z.div_mod (2 * n) 3 ltac:(lia)) as Hdm.
  pose proof (Z.mod_pos_bound (2 * n) 3 ltac:(lia)) as Hj.
  set (t := (2 * n) `div` 3) in *. set (j := (2 * n) `mod` 3) in *.
  clearbody t j.
  assert (2 * (n * C) = 3 * (C * t) + C * j) as HM
    by (replace (2 * (n * C)) with (2 * n * C) by ring; rewrite Hdm; ring).
  set (X := C * t) in *.
  pose proof (Z.div_mod q 2 ltac:(lia)) as Hq2.
  rewrite Zmod_odd in Hq2.
  set (h := q `div` 2) in *.
  split.
  - symmetry.
    apply (Z.div_unique _ _ _
             (h + (if Z.odd q && negb (rho =? 0) then 1 else 0) - X));
      [|unfold X; ring].
    left.
    assert (j = 0 ∨ j = 1 ∨ j = 2) as [-> | [-> | ->]] by lia;
      assert (rho = 0 ∨ rho = 1 ∨ rho = 2) as [-> | [-> | ->]] by lia;
      destruct (Z.odd q); simpl; lia.
  - intros Hodd ->. rewrite Hodd in Hq2. lia.
Qed.

(** In binary64, [int(float64(n) / 1.5)] is [floor(2 n / 3)] for every
    [n] below [1.5 * 2^52]; from there on the quotient has no bit left
    for a fraction and is rounded up. *)
Lemma b64_trunc_div_1_5_range (n : Z) :
  0 ≤ n < 3 * 2 ^ 51 →
  f_trunc (f_of_Z (F := float) n / f_lit 15 10)%f64 = (2 * n) `div` 3.
Proof.
  intros Hn.
  destruct (decide (n = 0)) as [->|Hn0]; [vm_compute; reflexivity|].
  change (f_trunc (f_of_Z (F := float) n / f_lit 15 10)%f64)
    with (Binary64.trunc (Binary64.of_Z n / (Binary64.of_Z 15 / Binary64.of_Z 10))%float).
  unfold Binary64.trunc, Binary64.of_Z at 1.
  destruct (Z.leb_spec 0 n) as [_|?]; [|lia].
  rewrite div_spec, of_uint63_spec, Uint63.of_Z_spec.
  rewrite Z.mod_small by (change Uint63.wB with (2 ^ 63); lia).
  assert (Prim2SF (Binary64.of_Z 15 / Binary64.of_Z 10)
          = S754_finite false 6755399441055744 (-52)) as -> by (vm_compute; reflexivity).
  change (SF64div ?x ?y) with (SFdiv 53 1024 x y).
  change prec with 53. change emax with 1024.
  (* the binade of [n] *)
  pose proof (Z.log2_spec n ltac:(lia)) as Hlog.
  pose proof (Z.log2_nonneg n) as Hlog0.
  assert (Z.log2 n < 53) as Hlog53 by (apply Z.log2_lt_pow2; lia).
  set (d := Z.log2 n + 1).
  replace (Z.log2 n) with (d - 1) in Hlog by (unfold d; lia).
  replace (Z.succ (d - 1)) with d in Hlog by lia.
  assert (1 ≤ d ≤ 53) as Hd by (unfold d; lia).
  clearbody d. clear Hlog0 Hlog53.
  rewrite (binary_normalize_exact n d) by done.
  (* the significand *)
  assert (0 < 2 ^ (53 - d)) as HC by (apply Z.pow_pos_nonneg; lia).
  assert (2 ^ 52 = 2 ^ (d - 1) * 2 ^ (53 - d)) as H52
    by (rewrite <- Z.pow_add_r by lia; f_equal; lia).
  assert (2 ^ 53 = 2 ^ d * 2 ^ (53 - d)) as H53
    by (rewrite <- Z.pow_add_r by lia; f_equal; lia).
  assert (2 ^ (54 - d) = 2 * 2 ^ (53 - d)) as H54
    by (rewrite <- Z.pow_succ_r by lia; f_equal; lia).
  assert (d = 53 → 2 ^ (53 - d) = 1) as HC1 by (intros ->; reflexivity).
  assert (d ≠ 53 → 2 ≤ 2 ^ (53 - d)) as HC2.
  { intros Hne. replace (53 - d) with (Z.succ (52 - d)) by lia.
    rewrite Z.pow_succ_r by lia.
    assert (0 < 2 ^ (52 - d)) by (apply Z.pow_pos_nonneg; lia). lia. }
  set (C := 2 ^ (53 - d)) in *.
  assert (2 ^ 52 ≤ n * C < 2 ^ 53) as HM.
  { rewrite H52, H53. destruct Hlog as [Hlo Hhi].
    revert Hlo Hhi. generalize (2 ^ (d - 1)) (2 ^ d). intros a b Hlo Hhi. nia. }
  clear H52 H53.
  rewrite SFdiv_1_5 by (rewrite ?Z2Pos.id by lia; lia).
  rewrite Z2Pos.id by lia.
  pose proof (Z.div_mod (4 * (n * C)) 3 ltac:(lia)) as Hq.
  pose proof (Z.mod_pos_bound (4 * (n * C)) 3 ltac:(lia)) as Hrho.
  set (q := (4 * (n * C)) `div` 3) in *.
  set (rho := (4 * (n * C)) `mod` 3) in *.
  destruct (Z.lt_ge_cases q (2 ^ 53)) as [Hq53|Hq53].
  - (* a 53-bit quotient *)
    assert (round_nearest_even q (third_location rho)
            = q + (if rho =? 2 then 1 else 0)) as Hround.
    { unfold third_location.
      assert (rho = 0 ∨ rho = 1 ∨ rho = 2) as [-> | [-> | ->]] by lia; simpl; lia. }
    rewrite binary_round_aux_53
      by (rewrite ?Hround; try destruct (Z.eqb_spec rho 2); lia).
    rewrite Hround.
    destruct (Z.leb_spec 0 (d - 53 - 1)) as [?|_]; [lia|].
    rewrite Z2Pos.id by (destruct (Z.eqb_spec rho 2); lia).
    rewrite Z.shiftr_div_pow2 by lia.
    replace (- (d - 53 - 1)) with (54 - d) by lia. rewrite H54.
    apply estimate_no_shift; lia.
  - (* a 54-bit quotient: [n] has fewer than 53 bits *)
    assert (d ≠ 53) as Hd53 by (intros Heq; specialize (HC1 Heq); lia).
    specialize (HC2 Hd53).
    destruct (estimate_shift n C q rho) as [Hest Hodd]; [lia..|].
    assert (round_nearest_even (q `div` 2)
              (loc_of_shr_record (shr_1 (shr_record_of_loc q (third_location rho))))
            = q `div` 2 + (if Z.odd q && negb (rho =? 0) then 1 else 0)) as Hround.
    { rewrite shifted_location by lia.
      destruct (Z.odd q) eqn:Ho.
      - specialize (Hodd eq_refl).
        destruct (Z.eqb_spec rho 0); [done|]. simpl. lia.
      - destruct (Z.eqb_spec rho 0); simpl; lia. }
    assert (q `div` 2 * 2 ≤ q) as Hh
      by (pose proof (Z.div_mod q 2 ltac:(lia));
          pose proof (Z.mod_pos_bound q 2 ltac:(lia)); lia).
    assert (2 ^ 52 ≤ q `div` 2) by (apply Z.div_le_lower_bound; lia).
    assert (q `div` 2 + (if Z.odd q && negb (rho =? 0) then 1 else 0) < 2 ^ 53)
      by (destruct (Z.odd q && negb (rho =? 0)); lia).
    rewrite binary_round_aux_54 by (rewrite ?Hround; lia).
    rewrite Hround.
    replace (d - 53 - 1 + 1) with (d - 53) by lia.
    destruct (Z.leb_spec 0 (d - 53)) as [?|_]; [lia|].
    rewrite Z2Pos.id by (destruct (Z.odd q && negb (rho =? 0)); lia).
    rewrite Z.shiftr_div_pow2 by lia.
    replace (- (d - 53)) with (53 - d) by lia. exact Hest.
Qed.

End binary64_estimate.

(** Every [MaxPayloadBytes] is below [1.5 * 2^52]: the estimate of
    [GetCapacityInfoFromData] in binary64 is the floor. *)
Lemma b64_estimate_of_capacity (w h : Z) :
  0 ≤ w → 0 ≤ h → w * h < 2 ^ 63 →
  f_trunc (f_of_Z (F := float) (0 `max` (((w `div` 8) * (h `div` 8)) `div` 24 - 16))
           / f_lit 15 10)%f64
  = Zfloor (IZR (0 `max` (((w `div` 8) * (h `div` 8)) `div` 24 - 16)) / 1.5)%R.
Proof.
  intros Hw Hh Hwh.
  pose proof (Z.div_mod w 8 ltac:(lia)) as Hw8.
  pose proof (Z.mod_pos_bound w 8 ltac:(lia)) as Hwr.
  pose proof (Z.div_mod h 8 ltac:(lia)) as Hh8.
  pose proof (Z.mod_pos_bound h 8 ltac:(lia)) as Hhr.
  assert (0 ≤ w `div` 8) as Ha by (apply Z.div_pos; lia).
  assert (0 ≤ h `div` 8) as Hb by (apply Z.div_pos; lia).
  assert (64 * ((w `div` 8) * (h `div` 8)) ≤ w * h) as Hcap by nia.
  assert (0 ≤ (w `div` 8) * (h `div` 8)) as Hcap0 by lia.
  set (cap := (w `div` 8) * (h `div` 8)) in *.
  pose proof (Z.div_mod cap 24 ltac:(lia)) as Hc24.
  pose proof (Z.mod_pos_bound cap 24 ltac:(lia)) as Hcr.
  set (mp := 0 `max` (cap `div` 24 - 16)).
  assert (0 ≤ mp < 3 * 2 ^ 51) as Hmp by (unfold mp; lia).
  rewrite b64_trunc_div_1_5_range by done.
  destruct (Rtrunc_div_1_5 mp) as [H1 H2]; [lia|]. by rewrite <- H2, H1.
Qed.


(** ** Extraction: the bound on the declared length *)

(** The length [ExtractMessageDCT] reads off bytes 8 to 11. *)
Lemma payloadLength_value (f : list byte) :
  Z.lor (Z.lor (Z.lor (Z.shiftl (Z_of_byte (f !!! 8%nat)) 24)
                      (Z.shiftl (Z_of_byte (f !!! 9%nat)) 16))
               (Z.shiftl (Z_of_byte (f !!! 10%nat)) 8))
        (Z_of_byte (f !!! 11%nat))
  = declared_length f.
Proof.
  unfold declared_length.
  change (be32_value (f !!! 8%nat) (f !!! 9%nat) (f !!! 10%nat) (f !!! 11%nat))
    with (be32_value (f !!! 8%nat) (f !!! (8 + 1)%nat) (f !!! (8 + 2)%nat)
            (f !!! (8 + 3)%nat)).
  rewrite <- (Uint32_value f 8). unfold framing.Uint32.
  change (8 + 3)%nat with 11%nat. change (8 + 2)%nat with 10%nat.
  change (8 + 1)%nat with 9%nat.
  apply Z.bits_inj'. intros n _. rewrite !Z.lor_spec.
  repeat destruct (Z.testbit _ _); reflexivity.
Qed.

Section extraction.
Context {F : Type} `{Float64 F} `{Codecs}.

Lemma afterHeaderProbe_declared_length_cap (yPlane : Plane F) (capacityBits : Z)
    (eccScheme : ecc.Scheme) (extractedBits : list bool) (frameBytes : list byte)
    (calls : list Z) :
  (16 ≤ length frameBytes)%nat →
  take 4 frameBytes = framing.Magic →
  declared_length frameBytes > 1000000 →
  afterHeaderProbe yPlane capacityBits eccScheme extractedBits frameBytes calls
  = (Err (Errorf "invalid payload length in header" [declared_length frameBytes]),
     calls).
Proof.
  intros Hlen Hmagic Hbig. unfold afterHeaderProbe.
  change framing.HeaderSize with 16%nat.
  case_decide; [lia|].
  change (slice frameBytes 0 4) with (take 4 frameBytes).
  case_decide; [done|]. cbv zeta.
  rewrite payloadLength_value.
  case_decide; [done|lia].
Qed.

Lemma ExtractMessageDCT_declared_length_cap (input : list byte) (img : Image)
    (format : string) (bits : list bool) (frameBytes : list byte) (calls : list Z) :
  imgutil.LoadImage input = Ok (img, format) →
  0 ≤ Dx img → 0 ≤ Dy img → Dx img * Dy img < 2 ^ 63 →
  extractBitsFromDCT (ImageToYCbCrPlanes img).1.1
    (384 `min` ((Dx img `div` 8) * (Dy img `div` 8))) = Ok bits →
  ecc.DecodeFrame ecc.Repetition3 bits = Ok frameBytes →
  (16 ≤ length frameBytes)%nat →
  take 4 frameBytes = framing.Magic →
  declared_length frameBytes > 1000000 →
  ExtractMessageDCT input calls
  = (Err (Errorf "invalid payload length in header" [declared_length frameBytes]),
     calls ++ [384 `min` ((Dx img `div` 8) * (Dy img `div` 8))]).
Proof.
  intros Hload Hw Hh Hwh Hbits Hdec Hlen Hmagic Hbig.
  unfold ExtractMessageDCT.
  rewrite Hload, GetScheme_Repetition3.
  destruct (ImageToYCbCrPlanes_size (F := F) img) as (HW & HH & _).
  destruct (CapacityBits_blocks (Dx img) (Dy img) Hw Hh Hwh) as [Hcap _].
  unfold mbind, M_bind, mret, M_ret, lift, on_error, extractCall. cbv beta iota.
  destruct (ImageToYCbCrPlanes img) as [[yPlane cbPlane] crPlane].
  simpl in HW, HH, Hbits. cbv beta iota zeta.
  rewrite HW, HH, Hcap.
  change (Z.of_nat framing.HeaderSize * 8 * 3) with 384.
  set (cap := Dx img `div` 8 * (Dy img `div` 8)) in *.
  assert ((if decide (cap < 384) then cap else 384) = 384 `min` cap) as ->
    by (case_decide; lia).
  rewrite Hbits. cbv beta iota. rewrite Hdec. cbv beta iota.
  change framing.HeaderSize with 16%nat.
  case_decide; [lia|]. cbv beta iota.
  by apply afterHeaderProbe_declared_length_cap.
Qed.
End extraction.

(** ** The claims on capacity and on extraction *)

(** C4 (capacity enforcement, detected before any mutation).  For every
    image that loads, of width [w] and height [h], every message [m] and
    options that select repetition-3 (nil options do): when
    [(16 + len(m)) * 8 * 3] exceeds [(w/8) * (h/8)], [EmbedMessageDCT]
    returns [ErrMessageTooLong], and the luminance plane at that moment is
    the plane the conversion produced, sample for sample. *)
Theorem EmbedMessageDCT_capacity_enforcement {F : Type} `{Float64 F} `{Codecs}
    (input message : list byte) (opts : option (EmbedOptions F))
    (img : Image) (format : string) :
  imgutil.LoadImage input = Ok (img, format) →
  ECC (Config (default DefaultEmbedOptions opts)) = ecc.ECCSchemeRepetition3 →
  0 ≤ Dx img → 0 ≤ Dy img → Dx img * Dy img < 2 ^ 63 →
  (16 + Z.of_nat (length message)) * 8 * 3 > (Dx img `div` 8) * (Dy img `div` 8) →
  EmbedMessageDCT (Some input) message opts None
  = (Err ErrMessageTooLong, Some (ImageToYCbCrPlanes img).1.1)
  ∧ imgutil.CapacityBits (Width (ImageToYCbCrPlanes (F := F) img).1.1)
                         (Height (ImageToYCbCrPlanes (F := F) img).1.1)
    = (Dx img `div` 8) * (Dy img `div` 8).
Proof.
  intros Hload Hecc Hw Hh Hwh Hlong. split.
  - by apply (EmbedMessageDCT_too_long input message opts img format).
  - destruct (ImageToYCbCrPlanes_size (F := F) img) as (-> & -> & _).
    by apply CapacityBits_blocks.
Qed.

(** The case of the repository's test: a 16 by 16 image (4 bits) and a
    message of 100 bytes. *)
Lemma EmbedMessageDCT_capacity_enforcement_witness :
  let codecs := fixed_image_codecs (grey_image 16 16) in
  imgutil.LoadImage [] = Ok (grey_image 16 16, "png")
  ∧ ECC (Config (default (DefaultEmbedOptions (F := float)) None)) = ecc.ECCSchemeRepetition3
  ∧ (16 + Z.of_nat (length (replicate 100 x00))) * 8 * 3 > (16 `div` 8) * (16 `div` 8)
  ∧ EmbedMessageDCT (F := float) (Some []) (replicate 100 x00) None None
    = (Err ErrMessageTooLong, Some (ImageToYCbCrPlanes (grey_image 16 16)).1.1).
Proof.
  intros codecs.
  split; [reflexivity|]. split; [reflexivity|]. split; [vm_compute; reflexivity|].
  apply (EmbedMessageDCT_capacity_enforcement (F := float) [] (replicate 100 x00) None
           (grey_image 16 16) "png");
    [reflexivity|reflexivity|simpl; lia|simpl; lia|vm_compute; reflexivity
    |vm_compute; reflexivity].
Defined.

(** C7 (capacity arithmetic).  Under repetition-3, for every image that
    loads, of width [w] and height [h], [GetCapacityInfoFromData] returns
    [BlocksAcross = w/8], [BlocksDown = h/8],
    [CapacityBits = (w/8) * (h/8)],
    [MaxPayloadBytes = max(0, CapacityBits/24 - 16)] and
    [MaxUTF8Chars = floor(MaxPayloadBytes / 1.5)]: this in the binary64
    arithmetic of the machine (second part) as in exact arithmetic, the
    program computing [int(float64(MaxPayloadBytes) / 1.5)] (first part,
    for any arithmetic).  The expansion factor it measures on a frame of
    17 zero bytes is [408 / (17*8) = 3].  In binary64 the estimate
    [int(float64(n) / 1.5)] is [floor(n / 1.5)] for every [n] below
    [1.5 * 2^52], which every [MaxPayloadBytes] is.  A 1024 by 1024 image
    gives 128, 128, 16384, 666 and 444. *)
Theorem capacity_arithmetic :
  (∀ (F : Type) (F64 : Float64 F) (codecs : Codecs)
     (data : list byte) (img : Image) (format : string),
     imgutil.LoadImage data = Ok (img, format) →
     0 ≤ Dx img → 0 ≤ Dy img → Dx img * Dy img < 2 ^ 63 →
     GetCapacityInfoFromData data ecc.ECCSchemeRepetition3
     = Ok {| CIWidth := Dx img; CIHeight := Dy img;
             BlocksAcross := Dx img `div` 8; BlocksDown := Dy img `div` 8;
             CapacityBits := (Dx img `div` 8) * (Dy img `div` 8);
             MaxPayloadBytes :=
               0 `max` (((Dx img `div` 8) * (Dy img `div` 8)) `div` 24 - 16);
             MaxUTF8Chars :=
               f_trunc (f_of_Z (0 `max` (((Dx img `div` 8) * (Dy img `div` 8)) `div` 24 - 16))
                        / f_lit 15 10)%f64 |})
  ∧ (∀ (codecs : Codecs) (data : list byte) (img : Image) (format : string),
       imgutil.LoadImage data = Ok (img, format) →
       0 ≤ Dx img → 0 ≤ Dy img → Dx img * Dy img < 2 ^ 63 →
       GetCapacityInfoFromData (F := float) data ecc.ECCSchemeRepetition3
       = Ok {| CIWidth := Dx img; CIHeight := Dy img;
               BlocksAcross := Dx img `div` 8; BlocksDown := Dy img `div` 8;
               CapacityBits := (Dx img `div` 8) * (Dy img `div` 8);
               MaxPayloadBytes :=
                 0 `max` (((Dx img `div` 8) * (Dy img `div` 8)) `div` 24 - 16);
               MaxUTF8Chars :=
                 Zfloor (IZR (0 `max` (((Dx img `div` 8) * (Dy img `div` 8)) `div` 24 - 16))
                         / 1.5)%R |})
  ∧ (∃ bits : list bool,
       ecc.EncodeFrame ecc.Repetition3 (replicate 17 x00) = Ok bits
       ∧ Z.of_nat (length bits) = 408 ∧ 408 `quot` (17 * 8) = 3
       ∧ expansionFactor ecc.Repetition3 = Ok 3)
  ∧ (∀ n : Z, 0 ≤ n →
       f_trunc (f_of_Z (F := R) n / f_lit 15 10)%f64 = Zfloor (IZR n / 1.5)%R)
  ∧ (∀ n : Z, 0 ≤ n < 3 * 2 ^ 51 →
       f_trunc (f_of_Z (F := float) n / f_lit 15 10)%f64 = Zfloor (IZR n / 1.5)%R
       ∧ f_trunc (f_of_Z (F := float) n / f_lit 15 10)%f64 = (2 * n) `div` 3)
  ∧ (∀ (codecs : Codecs) (data : list byte) (img : Image) (format : string),
       imgutil.LoadImage data = Ok (img, format) →
       Dx img = 1024 → Dy img = 1024 →
       GetCapacityInfoFromData (F := float) data ecc.ECCSchemeRepetition3
       = Ok {| CIWidth := 1024; CIHeight := 1024;
               BlocksAcross := 128; BlocksDown := 128; CapacityBits := 16384;
               MaxPayloadBytes := 666; MaxUTF8Chars := 444 |}).
Proof.
  split.
  { intros F F64 codecs data img format Hload Hw Hh Hwh.
    by rewrite (GetCapacityInfoFromData_Repetition3 data img format). }
  split.
  { intros codecs data img format Hload Hw Hh Hwh.
    rewrite (GetCapacityInfoFromData_Repetition3 data img format) by done.
    unfold capacity_of. cbv zeta. do 2 f_equal.
    by apply b64_estimate_of_capacity. }
  split.
  { eexists. split; [reflexivity|]. split; [reflexivity|]. split; [reflexivity|].
    apply expansionFactor_Repetition3. }
  split; [intros n Hn; by apply Rtrunc_div_1_5|].
  split.
  { intros n Hn. rewrite b64_trunc_div_1_5_range by done.
    destruct (Rtrunc_div_1_5 n) as [H1 H2]; [lia|]. by rewrite <- H2, H1. }
  intros codecs data img format Hload Hw Hh.
  rewrite (GetCapacityInfoFromData_Repetition3 data img format) by (done || rewrite ?Hw, ?Hh; lia).
  rewrite Hw, Hh. vm_compute. reflexivity.
Qed.

(** C10 (the bound on the declared payload length).  Once the header
    probe of [ExtractMessageDCT] has yielded at least 16 bytes that start
    with ["EMG0"] and declare (bytes 8 to 11, big-endian) more than
    1000000 payload bytes, the operation fails with "invalid payload
    length in header" without another extraction, whatever the capacity
    of the image.  On the whole function: when the probe (the first
    [min(384, capacity)] bits, decoded) yields such bytes, the result is
    that error and the probe is the only extraction made. *)
Theorem ExtractMessageDCT_payload_length_cap {F : Type} `{Float64 F} `{Codecs}
    (yPlane : Plane F) (capacityBits : Z) (eccScheme : ecc.Scheme)
    (extractedBits : list bool) (frameBytes : list byte) (calls : list Z) :
  (16 ≤ length frameBytes)%nat →
  take 4 frameBytes = framing.Magic →
  declared_length frameBytes > 1000000 →
  afterHeaderProbe yPlane capacityBits eccScheme extractedBits frameBytes calls
  = (Err (Errorf "invalid payload length in header" [declared_length frameBytes]), calls)
  ∧ ∀ (input : list byte) (img : Image) (format : string),
      imgutil.LoadImage input = Ok (img, format) →
      0 ≤ Dx img → 0 ≤ Dy img → Dx img * Dy img < 2 ^ 63 →
      extractBitsFromDCT (ImageToYCbCrPlanes img).1.1
        (384 `min` ((Dx img `div` 8) * (Dy img `div` 8))) = Ok extractedBits →
      ecc.DecodeFrame ecc.Repetition3 extractedBits = Ok frameBytes →
      ExtractMessageDCT input calls
      = (Err (Errorf "invalid payload length in header" [declared_length frameBytes]),
         calls ++ [384 `min` ((Dx img `div` 8) * (Dy img `div` 8))]).
Proof.
  intros Hlen Hmagic Hbig. split.
  - by apply afterHeaderProbe_declared_length_cap.
  - intros input img format Hload Hw Hh Hwh Hbits Hdec.
    by apply (ExtractMessageDCT_declared_length_cap input img format
                extractedBits frameBytes calls).
Qed.

(** A probe that declares 1000001 payload bytes, on a plane whose
    capacity, 24010000 bits, exceeds the 24000408 bits of the frame it declares. *)
Lemma ExtractMessageDCT_payload_length_cap_witness :
  (16 ≤ length probe_header)%nat
  ∧ take 4 probe_header = framing.Magic
  ∧ declared_length probe_header = 1000001
  ∧ (16 + 1000001) * 8 * 3 ≤ imgutil.CapacityBits 39200 39200
  ∧ afterHeaderProbe (F := float)
      {| Pix := []; Width := 39200; Height := 39200; Stride := 39200 |}
      (imgutil.CapacityBits 39200 39200) ecc.Repetition3 probe_bits probe_header []
    = (Err (Errorf "invalid payload length in header" [1000001]), []).
Proof.
  split; [simpl; lia|]. split; [reflexivity|]. split; [reflexivity|].
  split; [vm_compute; intros Hc; discriminate Hc|].
  pose proof (ExtractMessageDCT_payload_length_cap (F := float)
                (H0 := fixed_image_codecs (grey_image 16 16))
                {| Pix := []; Width := 39200; Height := 39200; Stride := 39200 |}
                (imgutil.CapacityBits 39200 39200) ecc.Repetition3
                probe_bits probe_header []) as Hcap.
  destruct Hcap as [Hcap _]; [simpl; lia|reflexivity|vm_compute; reflexivity|].
  exact Hcap.
Defined.
